(** * sk-pkg/redis: a prefixed, pooled Redis client

    A shallow embedding of the methods of [Manager] in package [redis]:
    - redis.go, the current file with the documented methods
      ([prefixKey], [BatchDel] with SCAN, [Set], [GetString], [Get],
      [SetNX], [Decr], [HSet], [Publish], [Subscribe], [PSubscribe],
      [SetJSON], [GetJSON]; [New] with its options, [Ping], [Do], the
      list methods [LPush], [RPush], [LPop], [RPop] and their JSON
      variants, [ZRangeWithScores] and [ZRevRangeWithScores]);
    - redis_with_context.go, the same methods taking a [context.Context];
    - the older redis.go that the repository still ships ([BatchDel] with
      KEYS, [Hset], [Get], [ZrevrangeResArr]), in module [Legacy];
    together with the part of redigo (reply helpers, [strconv.ParseInt])
    and of the Redis server that these methods rely on.

    Every method borrows a connection from the pool, sends commands with
    [conn.Do] and decodes the reply with one of redigo's reply helpers.
    The embedding keeps that shape: a method is a computation in a small
    state monad over a [world], which holds the server, the list of
    commands sent so far and the counter the pool uses to name
    connections. Go's [int] is [Z]; a string or byte slice is a
    [string]; a nil byte slice is [None]. *)

From Stdlib Require Import ZArith Lia Ascii.
From stdpp Require Import base option list gmap strings pretty.

Local Open Scope Z_scope.
Set Warnings "-register-all".

(** ** Wire-level data *)

(** A command argument, Go's [any] restricted to what the Manager passes
    to redigo: strings, byte slices and ints. *)
Inductive arg :=
  | AStr (s : string)
  | ABytes (b : string)
  | AInt (n : Z).

Record command := Cmd { cmd_name : string; cmd_args : list arg }.

(** A reply as redigo hands it to the caller: [nil], [int64], [[]byte],
    [string] (a status line), [[]interface{}] and [redis.Error]. *)
Inductive reply :=
  | RNil
  | RInt (n : Z)
  | RBulk (b : string)
  | RStatus (s : string)
  | RArr (l : list reply)
  | RErr (msg : string).

(** Go errors that the package produces or passes on. [ErrWrap] is
    [fmt.Errorf("...: %w", err)]. *)
Inductive error :=
  | ErrNil
  | ErrServer (msg : string)
  | ErrConn (msg : string)
  | ErrCtx (msg : string)
  | ErrUnexpectedType (helper : string)
  | ErrSyntax
  | ErrRange
  | ErrJSON (msg : string)
  | ErrWrap (msg : string) (e : error).

Global Instance arg_eq_dec : EqDecision arg.
Proof. solve_decision. Defined.
Global Instance command_eq_dec : EqDecision command.
Proof. solve_decision. Defined.
Global Instance error_eq_dec : EqDecision error.
Proof. solve_decision. Defined.

(** [errors.Is(err, target)] for a target without an [Is] method: walk
    the chain of wrapped errors. *)
Fixpoint errors_Is (err target : error) : bool :=
  bool_decide (err = target) ||
  match err with
  | ErrWrap _ e => errors_Is e target
  | _ => false
  end.

(** What [conn.Do] returns: a reply or an error. *)
Definition result := (reply + error)%type.

(** ** strconv.ParseInt(s, 10, 0) on a 64-bit platform *)

Definition MaxInt64 : Z := 2 ^ 63 - 1.
Definition MinInt64 : Z := - 2 ^ 63.

Definition digit_of (c : ascii) : option Z :=
  let n := Z.of_nat (Ascii.nat_of_ascii c) in
  if (48 <=? n) && (n <=? 57) then Some (n - 48) else None.

Fixpoint parse_digits (acc : Z) (s : string) : option Z :=
  match s with
  | EmptyString => Some acc
  | String c s' =>
      match digit_of c with
      | Some d => parse_digits (10 * acc + d) s'
      | None => None
      end
  end.

Definition ParseInt (s : string) : Z * option error :=
  match s with
  | EmptyString => (0, Some ErrSyntax)
  | String c rest =>
      let neg := bool_decide (c = "-"%char) in
      let body := if bool_decide (c = "+"%char) || neg then rest else s in
      match body with
      | EmptyString => (0, Some ErrSyntax)
      | _ =>
          match parse_digits 0 body with
          | None => (0, Some ErrSyntax)
          | Some un =>
              if negb neg && (2 ^ 63 <=? un) then (MaxInt64, Some ErrRange)
              else if neg && (2 ^ 63 <? un) then (MinInt64, Some ErrRange)
              else (if neg then - un else un, None)
          end
      end
  end.

(** ** redigo's reply helpers

    Each helper takes the pair returned by [conn.Do]; an error passed in
    is returned unchanged. *)

Definition redis_Int (r : reply) : Z * option error :=
  match r with
  | RInt n => (n, None)
  | RBulk b => ParseInt b
  | RNil => (0, Some ErrNil)
  | RErr msg => (0, Some (ErrServer msg))
  | _ => (0, Some (ErrUnexpectedType "Int"))
  end.

Definition ParseBool (s : string) : bool * option error :=
  if bool_decide (s ∈ ["1"; "t"; "T"; "TRUE"; "true"; "True"]) then (true, None)
  else if bool_decide (s ∈ ["0"; "f"; "F"; "FALSE"; "false"; "False"]) then (false, None)
  else (false, Some ErrSyntax).

Definition redis_Bool (r : reply) : bool * option error :=
  match r with
  | RInt n => (negb (n =? 0), None)
  | RBulk b => ParseBool b
  | RNil => (false, Some ErrNil)
  | RErr msg => (false, Some (ErrServer msg))
  | _ => (false, Some (ErrUnexpectedType "Bool"))
  end.

Definition redis_String (r : reply) : string * option error :=
  match r with
  | RBulk b => (b, None)
  | RStatus s => (s, None)
  | RNil => ("", Some ErrNil)
  | RErr msg => ("", Some (ErrServer msg))
  | _ => ("", Some (ErrUnexpectedType "String"))
  end.

(** [redis.Bytes]: the byte slice is [None] when Go returns a nil slice. *)
Definition redis_Bytes (r : reply) : option string * option error :=
  match r with
  | RBulk b => (Some b, None)
  | RStatus s => (Some s, None)
  | RNil => (None, Some ErrNil)
  | RErr msg => (None, Some (ErrServer msg))
  | _ => (None, Some (ErrUnexpectedType "Bytes"))
  end.

Definition redis_Values (r : reply) : list reply * option error :=
  match r with
  | RArr l => (l, None)
  | RNil => ([], Some ErrNil)
  | RErr msg => ([], Some (ErrServer msg))
  | _ => ([], Some (ErrUnexpectedType "Values"))
  end.

(** [redis.Strings] allocates a slice as long as the reply and fills it
    from the left; a nil element is skipped, and an element that is
    neither a string nor a byte slice stops the filling with an error,
    the slots from there on keeping their zero value. *)
Fixpoint strings_fill (l : list reply) : list string * option error :=
  match l with
  | [] => ([], None)
  | r :: l' =>
      match r with
      | RBulk b | RStatus b =>
          let '(t, e) := strings_fill l' in (b :: t, e)
      | RNil =>
          let '(t, e) := strings_fill l' in ("" :: t, e)
      | _ => ("" :: replicate (length l') "", Some (ErrUnexpectedType "Strings"))
      end
  end.

Definition redis_Strings (r : reply) : list string * option error :=
  match r with
  | RArr l => strings_fill l
  | RNil => ([], Some ErrNil)
  | RErr msg => ([], Some (ErrServer msg))
  | _ => ([], Some (ErrUnexpectedType "Strings"))
  end.

(** A helper applied directly to the pair [conn.Do] returned. *)
Definition decode {A} (h : reply -> A * option error) (zero : A)
    (r : result) : A * option error :=
  match r with
  | inl rep => h rep
  | inr e => (zero, Some e)
  end.

(** [redis.Args{}.AddFlat(keys)] for a slice of strings. *)
Definition AddFlat (keys : list string) : list arg := AStr <$> keys.

(** ** The pool, its connections and the world a method runs in *)

(** A pooled connection is named by a number. *)
Definition conn := nat.

Record world (server : Type) := World {
  srv : server;
  sent : list command;
  next_conn : conn
}.
Arguments World {server} _ _ _.
Arguments srv {server} _.
Arguments sent {server} _.
Arguments next_conn {server} _.

(** [context.Context], as far as the pool looks at it: the error with
    which [GetContext] refuses a connection for this context, if it
    does. For a pool that waits for a free connection (Wait with
    MaxActive > 0, as [New] sets them unless told otherwise) this is
    [ctx.Err()] of a context that is done. *)
Record Context := { ctx_Err : option error }.

(** How a Go function ends: it returns, it panics, or (in the model
    only) the loop was given too little fuel. *)
Inductive outcome (A : Type) :=
  | Returned (a : A)
  | Panicked
  | OutOfFuel.
Arguments Returned {A} _.
Arguments Panicked {A}.
Arguments OutOfFuel {A}.

Record Manager := { Prefix : string }.

(** [WithPrefix(prefix)] stores the prefix followed by a colon. *)
Definition WithPrefix (prefix : string) : Manager := {| Prefix := prefix +:+ ":" |}.

(** [func (m *Manager) prefixKey(key string) string] *)
Definition prefixKey (m : Manager) (key : string) : string := Prefix m +:+ key.

Section Client.
Context {server : Type}.

(** The server: how it answers a command sent on a connection, and what
    it does when a connection is handed back to the pool. *)
Variable exec : server -> conn -> command -> server * result.
Variable release : server -> conn -> server.

Definition M (A : Type) : Type := world server -> A * world server.

#[global] Instance M_ret : MRet M := λ A a w, (a, w).
#[global] Instance M_bind : MBind M := λ A B f m w, let '(a, w') := m w in f a w'.

(** [m.ConnPool.Get()] *)
Definition pool_Get : M conn :=
  λ w, (next_conn w, World (srv w) (sent w) (S (next_conn w))).

(** [m.ConnPool.GetContext(ctx)]: the error of the context when it has
    one, a connection otherwise. What else can keep redigo from giving
    a connection (a dial that fails, a closed pool) is not modelled
    here: a connection that cannot be used answers [conn.Do] with an
    error, which is the server's part. *)
Definition pool_GetContext (ctx : Context) : M (conn + error) :=
  match ctx_Err ctx with
  | Some e => mret (inr e)
  | None => c ← pool_Get; mret (inl c)
  end.

(** [conn.Do(commandName, args...)] *)
Definition conn_Do (c : conn) (name : string) (args : list arg) : M result :=
  λ w, let '(s', r) := exec (srv w) c (Cmd name args) in
       (r, World s' (sent w ++ [Cmd name args]) (next_conn w)).

(** [conn.Close()]: the connection goes back to the pool. *)
Definition conn_Close (c : conn) : M unit :=
  λ w, (tt, World (release (srv w) c) (sent w) (next_conn w)).

(** [conn := m.ConnPool.Get(); defer conn.Close(); body] *)
Definition with_conn {A} (body : conn -> M A) : M A :=
  c ← pool_Get; a ← body c; _ ← conn_Close c; mret a.

(** [conn, err := m.ConnPool.GetContext(ctx); if err != nil { return
    zero, err }; defer conn.Close(); body] *)
Definition with_conn_ctx {A} (ctx : Context) (on_err : error -> A)
    (body : conn -> M A) : M A :=
  g ← pool_GetContext ctx;
  match g with
  | inr e => mret (on_err e)
  | inl c => a ← body c; _ ← conn_Close c; mret a
  end.

Definition err_of (r : result) : option error :=
  match r with inl _ => None | inr e => Some e end.

(** *** redis.go, the current file *)

Definition Do (m : Manager) (commandName : string) (args : list arg) : M result :=
  with_conn (λ c, conn_Do c commandName args).

Definition Exists (m : Manager) (key : string) : M (bool * option error) :=
  with_conn (λ c,
    r ← conn_Do c "EXISTS" [AStr (prefixKey m key)];
    mret (decode redis_Bool false r)).

Definition Del (m : Manager) (key : string) : M (bool * option error) :=
  with_conn (λ c,
    r ← conn_Do c "DEL" [AStr (prefixKey m key)];
    mret (decode redis_Bool false r)).

(** The loop of [BatchDel]; [fuel] bounds the number of iterations. *)
Fixpoint BatchDel_loop (fuel : nat) (c : conn) (fullPattern : string)
    (cursor : Z) : M (outcome (option error)) :=
  match fuel with
  | O => mret OutOfFuel
  | S fuel' =>
      r ← conn_Do c "SCAN"
            [AInt cursor; AStr "MATCH"; AStr fullPattern; AStr "COUNT"; AInt 100];
      match decode redis_Values [] r with
      | (_, Some err) =>
          mret (Returned (Some (ErrWrap "SCAN operation failed" err)))
      | (rep, None) =>
          match rep with
          | r0 :: r1 :: _ =>
              let cursor' := fst (redis_Int r0) in
              let keys := fst (redis_Strings r1) in
              d ← (if bool_decide (0 < length keys)%nat
                   then r ← conn_Do c "DEL" (AddFlat keys); mret (err_of r)
                   else mret None);
              match d with
              | Some err =>
                  mret (Returned (Some (ErrWrap "DEL operation failed" err)))
              | None =>
                  if cursor' =? 0 then mret (Returned None)
                  else BatchDel_loop fuel' c fullPattern cursor'
              end
          | _ => mret Panicked
          end
      end
  end.

Definition BatchDel (fuel : nat) (m : Manager) (pattern : string)
    : M (outcome (option error)) :=
  with_conn (λ c,
    BatchDel_loop fuel c ("*" +:+ Prefix m +:+ pattern +:+ "*") 0).

Definition Set_ (m : Manager) (key : string) (data : arg) (ttl : Z)
    : M (option error) :=
  with_conn (λ c,
    r ← (if 0 <? ttl
         then conn_Do c "SET" [AStr (prefixKey m key); data; AStr "EX"; AInt ttl]
         else conn_Do c "SET" [AStr (prefixKey m key); data]);
    mret (err_of r)).

Definition SetString (m : Manager) (key str : string) (ttl : Z)
    : M (option error) :=
  with_conn (λ c,
    r ← (if 0 <? ttl
         then conn_Do c "SET" [AStr (prefixKey m key); AStr str; AStr "EX"; AInt ttl]
         else conn_Do c "SET" [AStr (prefixKey m key); AStr str]);
    mret (err_of r)).

Definition GetString (m : Manager) (key : string) : M (string * option error) :=
  with_conn (λ c,
    r ← conn_Do c "EXISTS" [AStr (prefixKey m key)];
    let '(exist_, err) := decode redis_Bool false r in
    if negb exist_ || bool_decide (err ≠ None) then mret ("", err)
    else r ← conn_Do c "GET" [AStr (prefixKey m key)];
         mret (decode redis_String "" r)).

Definition Get (m : Manager) (key : string)
    : M (option string * option error) :=
  with_conn (λ c,
    r ← conn_Do c "EXISTS" [AStr (prefixKey m key)];
    let '(exists_, err) := decode redis_Bool false r in
    match err with
    | Some e => mret (None, Some e)
    | None =>
        if negb exists_ then mret (None, Some ErrNil)
        else r ← conn_Do c "GET" [AStr (prefixKey m key)];
             mret (decode redis_Bytes None r)
    end).

(** The tail shared by [SetNX] and [SetNXWithContext]. *)
Definition SetNX_body (m : Manager) (key : string) (value : arg) (sec : Z)
    (c : conn) : M (bool * option error) :=
  let args := [AStr (prefixKey m key); value] ++ [AStr "NX"] in
  let args := if 0 <? sec then args ++ [AStr "EX"; AInt sec] else args in
  r ← conn_Do c "SET" args;
  let '(rep, err) := decode redis_String "" r in
  match err with
  | Some e =>
      if errors_Is e ErrNil then mret (false, None) else mret (false, Some e)
  | None => mret (bool_decide (rep = "OK"), None)
  end.

Definition SetNX (m : Manager) (key : string) (value : arg) (sec : Z)
    : M (bool * option error) :=
  with_conn (SetNX_body m key value sec).

Definition Decr (m : Manager) (key : string) : M (Z * option error) :=
  with_conn (λ c,
    r ← conn_Do c "DECR" [AStr (prefixKey m key)];
    mret (decode redis_Int 0 r)).

Definition HSet (m : Manager) (key field : string) (value : arg)
    : M (option error) :=
  with_conn (λ c,
    r ← conn_Do c "HSET" [AStr (prefixKey m key); AStr field; value];
    mret (err_of r)).

Definition Publish (m : Manager) (channel : string) (message : arg)
    : M (Z * option error) :=
  with_conn (λ c,
    r ← conn_Do c "PUBLISH" [AStr (Prefix m +:+ channel); message];
    mret (decode redis_Int 0 r)).

(** [prefixedChannels[i] = m.Prefix + ch.(string)]: the type assertion
    panics on an argument that is not a string. *)
Fixpoint prefix_all (m : Manager) (channels : list arg) : option (list arg) :=
  match channels with
  | [] => Some []
  | AStr ch :: rest =>
      match prefix_all m rest with
      | Some t => Some (AStr (Prefix m +:+ ch) :: t)
      | None => None
      end
  | _ :: _ => None
  end.

(** [psc.Subscribe] and [psc.PSubscribe] send the command and flush;
    only an error comes back. *)
Definition psc_send (c : conn) (name : string) (channels : list arg)
    : M (option error) :=
  r ← conn_Do c name channels; mret (err_of r).

Definition subscribe_with (name : string) (m : Manager) (channels : list arg)
    : M (outcome (option conn * option error)) :=
  with_conn (λ c,
    match prefix_all m channels with
    | None => mret Panicked
    | Some prefixed =>
        err ← psc_send c name prefixed;
        match err with
        | Some e => mret (Returned (None, Some e))
        | None => mret (Returned (Some c, None))
        end
    end).

Definition Subscribe := subscribe_with "SUBSCRIBE".
Definition PSubscribe := subscribe_with "PSUBSCRIBE".

(** *** JSON helpers; [json.Marshal] and [json.Unmarshal] are taken as
    given for the type [T] of the values stored. *)
Context {T : Type}.
Variable Marshal : T -> string + error.
Variable Unmarshal : string -> T + error.

Definition SetJSON (m : Manager) (key : string) (value : T) (expiration : Z)
    : M (option error) :=
  with_conn (λ c,
    match Marshal value with
    | inr e => mret (Some e)
    | inl jsonData =>
        r ← (if 0 <? expiration
             then conn_Do c "SET"
                    [AStr (prefixKey m key); ABytes jsonData; AStr "EX"; AInt expiration]
             else conn_Do c "SET" [AStr (Prefix m +:+ key); ABytes jsonData]);
        mret (err_of r)
    end).

(** The tail shared by [GetJSON] and [GetJSONWithContext]. The first
    component is what was stored through the pointer [value], if
    anything. *)
Definition GetJSON_body (m : Manager) (key : string) (c : conn)
    : M (option T * option error) :=
  r ← conn_Do c "GET" [AStr (Prefix m +:+ key)];
  match r with
  | inr e => mret (None, Some e)
  | inl RNil => mret (None, Some ErrNil)
  | inl rep =>
      match redis_Bytes rep with
      | (_, Some e) => mret (None, Some e)
      | (jsonData, None) =>
          match Unmarshal (default "" jsonData) with
          | inr e => mret (None, Some e)
          | inl v => mret (Some v, None)
          end
      end
  end.

Definition GetJSON (m : Manager) (key : string) : M (option T * option error) :=
  with_conn (GetJSON_body m key).

(** *** redis_with_context.go *)

Definition DelWithContext (ctx : Context) (m : Manager) (key : string)
    : M (bool * option error) :=
  with_conn_ctx ctx (λ e, (false, Some e)) (λ c,
    r ← conn_Do c "DEL" [AStr (prefixKey m key)];
    mret (decode redis_Bool false r)).

Definition BatchDelWithContext (fuel : nat) (ctx : Context) (m : Manager)
    (pattern : string) : M (outcome (option error)) :=
  with_conn_ctx ctx (λ e, Returned (Some e)) (λ c,
    BatchDel_loop fuel c ("*" +:+ Prefix m +:+ pattern +:+ "*") 0).

Definition SetWithContext (ctx : Context) (m : Manager) (key : string)
    (data : arg) (ttl : Z) : M (option error) :=
  with_conn_ctx ctx Some (λ c,
    r ← (if 0 <? ttl
         then conn_Do c "SET" [AStr (prefixKey m key); data; AStr "EX"; AInt ttl]
         else conn_Do c "SET" [AStr (prefixKey m key); data]);
    mret (err_of r)).

Definition SetStringWithContext (ctx : Context) (m : Manager) (key str : string)
    (ttl : Z) : M (option error) :=
  with_conn_ctx ctx Some (λ c,
    r ← (if 0 <? ttl
         then conn_Do c "SET" [AStr (prefixKey m key); AStr str; AStr "EX"; AInt ttl]
         else conn_Do c "SET" [AStr (prefixKey m key); AStr str]);
    mret (err_of r)).

Definition GetStringWithContext (ctx : Context) (m : Manager) (key : string)
    : M (string * option error) :=
  with_conn_ctx ctx (λ e, ("", Some e)) (λ c,
    r ← conn_Do c "EXISTS" [AStr (prefixKey m key)];
    let '(exist_, err) := decode redis_Bool false r in
    if negb exist_ || bool_decide (err ≠ None) then mret ("", err)
    else r ← conn_Do c "GET" [AStr (prefixKey m key)];
         mret (decode redis_String "" r)).

Definition GetWithContext (ctx : Context) (m : Manager) (key : string)
    : M (option string * option error) :=
  with_conn_ctx ctx (λ e, (None, Some e)) (λ c,
    r ← conn_Do c "EXISTS" [AStr (prefixKey m key)];
    let '(exists_, err) := decode redis_Bool false r in
    match err with
    | Some e => mret (None, Some e)
    | None =>
        if negb exists_ then mret (None, Some ErrNil)
        else r ← conn_Do c "GET" [AStr (prefixKey m key)];
             mret (decode redis_Bytes None r)
    end).

Definition SetNXWithContext (ctx : Context) (m : Manager) (key : string)
    (value : arg) (sec : Z) : M (bool * option error) :=
  with_conn_ctx ctx (λ e, (false, Some e)) (SetNX_body m key value sec).

Definition DecrWithContext (ctx : Context) (m : Manager) (key : string)
    : M (Z * option error) :=
  with_conn_ctx ctx (λ e, (0, Some e)) (λ c,
    r ← conn_Do c "DECR" [AStr (prefixKey m key)];
    mret (decode redis_Int 0 r)).

Definition HSetWithContext (ctx : Context) (m : Manager) (key field : string)
    (value : arg) : M (option error) :=
  with_conn_ctx ctx Some (λ c,
    r ← conn_Do c "HSET" [AStr (prefixKey m key); AStr field; value];
    mret (err_of r)).

Definition PublishWithContext (ctx : Context) (m : Manager) (channel : string)
    (message : arg) : M (Z * option error) :=
  with_conn_ctx ctx (λ e, (0, Some e)) (λ c,
    r ← conn_Do c "PUBLISH" [AStr (Prefix m +:+ channel); message];
    mret (decode redis_Int 0 r)).

(** No deferred [Close] here: the connection is handed back only when
    subscribing fails. *)
Definition subscribe_ctx_with (name : string) (ctx : Context) (m : Manager)
    (channels : list arg) : M (outcome (option conn * option error)) :=
  g ← pool_GetContext ctx;
  match g with
  | inr e => mret (Returned (None, Some e))
  | inl c =>
      match prefix_all m channels with
      | None => mret Panicked
      | Some prefixed =>
          err ← psc_send c name prefixed;
          match err with
          | Some e => _ ← conn_Close c; mret (Returned (None, Some e))
          | None => mret (Returned (Some c, None))
          end
      end
  end.

Definition SubscribeWithContext := subscribe_ctx_with "SUBSCRIBE".
Definition PSubscribeWithContext := subscribe_ctx_with "PSUBSCRIBE".

Definition SetJSONWithContext (ctx : Context) (m : Manager) (key : string)
    (value : T) (expiration : Z) : M (option error) :=
  with_conn_ctx ctx Some (λ c,
    match Marshal value with
    | inr e => mret (Some e)
    | inl jsonData =>
        r ← (if 0 <? expiration
             then conn_Do c "SETEX"
                    [AStr (Prefix m +:+ key); AInt expiration; ABytes jsonData]
             else conn_Do c "SET" [AStr (Prefix m +:+ key); ABytes jsonData]);
        mret (err_of r)
    end).

Definition GetJSONWithContext (ctx : Context) (m : Manager) (key : string)
    : M (option T * option error) :=
  with_conn_ctx ctx (λ e, (None, Some e)) (GetJSON_body m key).

(** *** redis.go: the connection check *)

Definition Ping (m : Manager) : M (option error) :=
  r ← Do m "PING" []; mret (err_of r).

(** *** redis.go: lists *)

Definition LPop (m : Manager) (key : string) : M (option string * option error) :=
  with_conn (λ c,
    r ← conn_Do c "LPOP" [AStr (prefixKey m key)];
    mret (decode redis_Bytes None r)).

Definition RPop (m : Manager) (key : string) : M (option string * option error) :=
  with_conn (λ c,
    r ← conn_Do c "RPOP" [AStr (prefixKey m key)];
    mret (decode redis_Bytes None r)).

(** [redis.Args{}.Add(m.prefixKey(key)).AddFlat(values)] puts the
    values, one argument each, behind the key. *)
Definition LPush (m : Manager) (key : string) (values : list arg) : M (option error) :=
  with_conn (λ c,
    r ← conn_Do c "LPUSH" (AStr (prefixKey m key) :: values);
    mret (err_of r)).

Definition RPush (m : Manager) (key : string) (values : list arg) : M (option error) :=
  with_conn (λ c,
    r ← conn_Do c "RPUSH" (AStr (prefixKey m key) :: values);
    mret (err_of r)).

(** The loop of [LPushJSON] and [RPushJSON]: each value is marshalled in
    turn and added to the arguments; the first value that cannot be
    marshalled ends the method with its error. *)
Fixpoint marshal_each (args : list arg) (values : list T) : list arg + error :=
  match values with
  | [] => inl args
  | value :: rest =>
      match Marshal value with
      | inr e => inr e
      | inl jsonData => marshal_each (args ++ [ABytes jsonData]) rest
      end
  end.

Definition push_json (name : string) (m : Manager) (key : string) (values : list T)
    : M (option error) :=
  with_conn (λ c,
    match marshal_each [AStr (prefixKey m key)] values with
    | inr e => mret (Some e)
    | inl args => r ← conn_Do c name args; mret (err_of r)
    end).

Definition LPushJSON := push_json "LPUSH".
Definition RPushJSON := push_json "RPUSH".

(** What [LPopJSON] and [RPopJSON] return: the error they make
    themselves with [fmt.Errorf], or an error handed on from redigo or
    from [json.Unmarshal]. *)
Inductive pop_error :=
  | ErrText (msg : string)
  | ErrFrom (e : error).

(** [is_ptr] says whether [reflect.ValueOf(value).Kind()] is
    [reflect.Ptr]; the first component of the result is what was stored
    through [value], if anything. *)
Definition pop_json (name : string) (m : Manager) (key : string) (is_ptr : bool)
    : M (option T * option pop_error) :=
  if negb is_ptr then mret (None, Some (ErrText "value must be a pointer"))
  else
    with_conn (λ c,
      r ← conn_Do c name [AStr (prefixKey m key)];
      match decode redis_Bytes None r with
      | (_, Some e) => mret (None, Some (ErrFrom e))
      | (data, None) =>
          match Unmarshal (default "" data) with
          | inr e => mret (None, Some (ErrFrom e))
          | inl v => mret (Some v, None)
          end
      end).

Definition LPopJSON := pop_json "LPOP".
Definition RPopJSON := pop_json "RPOP".

(** *** redis.go: sorted sets with scores;
    [strconv.ParseFloat(s, 64)] is taken as given, [F] being float64. *)
Context {F : Type}.
Variable ParseFloat : string -> F + error.

Record ZSetMember := { Score : F; Member : string }.

(** The loop [for i := 0; i < len(values); i += 2]. In one round
    [values[i+1].([]byte)] is evaluated first, then the score is parsed,
    then [values[i].([]byte)]: an index out of range or an element that
    is not a byte slice panics. *)
Fixpoint zset_members (values : list reply) (members : list ZSetMember)
    : outcome (list ZSetMember * option error) :=
  match values with
  | [] => Returned (members, None)
  | v :: rest1 =>
      match rest1 with
      | RBulk s :: rest =>
          match ParseFloat s with
          | inr e => Returned ([], Some e)
          | inl score =>
              match v with
              | RBulk member =>
                  zset_members rest (members ++ [{| Score := score; Member := member |}])
              | _ => Panicked
              end
          end
      | _ => Panicked
      end
  end.

Definition range_with_scores (name : string) (m : Manager) (key : string)
    (start stop : Z) (c : conn) : M (outcome (list ZSetMember * option error)) :=
  r ← conn_Do c name [AStr (prefixKey m key); AInt start; AInt stop; AStr "WITHSCORES"];
  match decode redis_Values [] r with
  | (_, Some e) => mret (Returned ([], Some e))
  | (values, None) => mret (zset_members values [])
  end.

Definition ZRangeWithScores (m : Manager) (key : string) (start stop : Z)
    : M (outcome (list ZSetMember * option error)) :=
  with_conn (range_with_scores "ZRANGE" m key start stop).

Definition ZRevRangeWithScores (m : Manager) (key : string) (start stop : Z)
    : M (outcome (list ZSetMember * option error)) :=
  with_conn (range_with_scores "ZREVRANGE" m key start stop).
End Client.

(** ** The older redis.go

    The repository still ships the previous redis.go. Two of its methods
    differ from the current file in the commands they send. *)
Module Legacy.
Section Client.
Context {server : Type}.
Variable exec : server -> conn -> command -> server * result.
Variable release : server -> conn -> server.

(** [for _, k := range keys { _, err = redis.Bool(conn.Do("DEL", k)) ... }] *)
Fixpoint BatchDel_each (c : conn) (keys : list string) : M (option error) :=
  match keys with
  | [] => mret None
  | k :: rest =>
      r ← conn_Do exec c "DEL" [AStr k];
      match decode redis_Bool false r with
      | (_, Some e) => mret (Some e)
      | (_, None) => BatchDel_each c rest
      end
  end.

Definition BatchDel (m : Manager) (key : string) : M (option error) :=
  with_conn release (λ c,
    r ← conn_Do exec c "KEYS" [AStr ("*" +:+ Prefix m +:+ key +:+ "*")];
    match decode redis_Strings [] r with
    | (_, Some e) => mret (Some e)
    | (keys, None) => BatchDel_each c keys
    end).

Definition Hset (m : Manager) (key field value : string) : M (Z * option error) :=
  with_conn release (λ c,
    r ← conn_Do exec c "INCR" [AStr (prefixKey m key)];
    mret (decode redis_Int 0 r)).

(** [Get] without the EXISTS that the current file sends first. *)
Definition Get (m : Manager) (key : string) : M (option string * option error) :=
  with_conn release (λ c,
    r ← conn_Do exec c "GET" [AStr (Prefix m +:+ key)];
    mret (decode redis_Bytes None r)).

(** One round of the loop of [ZrevrangeResArr], at index [i]: an even
    index that has a successor adds a member and its score. *)
Definition ResArr_step (itemArr : list reply)
    (acc : outcome (list string * list string)) (i : nat)
    : outcome (list string * list string) :=
  match acc with
  | Returned (valArr, scoreArr) =>
      if (i `mod` 2 =? 0)%nat && (i + 1 <? length itemArr)%nat then
        match itemArr !! (i + 1)%nat with
        | Some (RBulk score) =>
            match itemArr !! i with
            | Some (RBulk val) => Returned (valArr ++ [val], scoreArr ++ [score])
            | _ => Panicked
            end
        | _ => Panicked
        end
      else acc
  | _ => acc
  end.

(** The type assertion [zrangeRes.([]interface{})] panics on a reply
    that is not an array. *)
Definition ZrevrangeResArr (m : Manager) (key : string) (start end_ : Z)
    : M (outcome (list string * list string * option error)) :=
  with_conn release (λ c,
    r ← conn_Do exec c "ZREVRANGE"
          [AStr (Prefix m +:+ key); AInt start; AInt end_; AStr "withscores"];
    match r with
    | inr e => mret (Returned ([], [], Some e))
    | inl (RArr itemArr) =>
        match foldl (ResArr_step itemArr) (Returned ([], [])) (seq 0 (length itemArr)) with
        | Returned (valArr, scoreArr) => mret (Returned (valArr, scoreArr, None))
        | Panicked => mret Panicked
        | OutOfFuel => mret OutOfFuel
        end
    | inl _ => mret Panicked
    end).
End Client.
End Legacy.

(** ** A server that answers from a script

    The state is the list of answers still to give; a command takes the
    next one, whatever it asks. Used to drive a method through a chosen
    sequence of replies and failures. *)
Module Scripted.
Definition exec (s : list result) (c : conn) (cmd : command) : list result * result :=
  match s with
  | [] => ([], inr (ErrConn "connection closed"))
  | r :: s' => (s', r)
  end.

Definition release (s : list result) (c : conn) : list result := s.

Definition start (s : list result) : world (list result) := World s [] 0%nat.
End Scripted.

(** ** A model of the Redis server

    String keys with an optional time to live, channel and pattern
    subscriptions, and the commands the Manager sends for them. Time does
    not pass in the model. *)
Module Redis.
(** *** Glob patterns, as used by KEYS, SCAN MATCH and PSUBSCRIBE *)
Inductive tok :=
  | TStar
  | TAny
  | TLit (c : ascii)
  | TClass (neg : bool) (items : list (ascii * ascii)).

Definition chr_is (c : ascii) (lit : ascii) : bool := bool_decide (c = lit).

Definition ordered (a b : ascii) : ascii * ascii :=
  if (nat_of_ascii b <? nat_of_ascii a)%nat then (b, a) else (a, b).

(** [cls] is [Some (neg, items)] while inside a bracket expression. *)
Fixpoint tokenize (cls : option (bool * list (ascii * ascii))) (p : list ascii)
    : list tok :=
  match cls with
  | None =>
      match p with
      | [] => []
      | c :: p' =>
          if chr_is c "*" then TStar :: tokenize None p'
          else if chr_is c "?" then TAny :: tokenize None p'
          else if chr_is c "[" then
            match p' with
            | c2 :: p'' =>
                if chr_is c2 "^" then tokenize (Some (true, [])) p''
                else tokenize (Some (false, [])) p'
            | [] => tokenize (Some (false, [])) p'
            end
          else if chr_is c "\" then
            match p' with
            | c2 :: p'' => TLit c2 :: tokenize None p''
            | [] => [TLit c]
            end
          else TLit c :: tokenize None p'
      end
  | Some (neg, items) =>
      match p with
      | [] => [TClass neg items]
      | c :: p' =>
          match p' with
          | c2 :: p'' =>
              if chr_is c "\" then tokenize (Some (neg, items ++ [(c2, c2)])) p''
              else if chr_is c "]" then TClass neg items :: tokenize None p'
              else
                match p'' with
                | c3 :: p3 =>
                    if chr_is c2 "-"
                    then tokenize (Some (neg, items ++ [ordered c c3])) p3
                    else tokenize (Some (neg, items ++ [(c, c)])) p'
                | [] => tokenize (Some (neg, items ++ [(c, c)])) p'
                end
          | [] =>
              if chr_is c "]" then [TClass neg items]
              else [TClass neg (items ++ [(c, c)])]
          end
      end
  end.

Definition in_range (c : ascii) (r : ascii * ascii) : bool :=
  (nat_of_ascii (fst r) <=? nat_of_ascii c)%nat &&
  (nat_of_ascii c <=? nat_of_ascii (snd r))%nat.

Fixpoint tmatch (ts : list tok) (s : list ascii) : bool :=
  match ts with
  | [] => match s with [] => true | _ => false end
  | TStar :: ts' =>
      (fix star (s : list ascii) : bool :=
         tmatch ts' s || match s with [] => false | _ :: s' => star s' end) s
  | TAny :: ts' =>
      match s with [] => false | _ :: s' => tmatch ts' s' end
  | TLit c :: ts' =>
      match s with [] => false | c' :: s' => chr_is c' c && tmatch ts' s' end
  | TClass neg items :: ts' =>
      match s with
      | [] => false
      | c' :: s' => xorb neg (existsb (in_range c') items) && tmatch ts' s'
      end
  end.

Definition glob (pattern s : string) : bool :=
  tmatch (tokenize None (String.list_ascii_of_string pattern))
         (String.list_ascii_of_string s).

(** *** The database *)
Record entry := Entry { e_val : string; e_ttl : option Z }.

Inductive sub_kind := Channel | Pattern.

Record db := Db {
  keys : gmap string entry;
  subs : list (conn * sub_kind * string);
  delivered : list (conn * string * string)
}.

Definition empty : db := Db ∅ [] [].

(** How redigo writes an argument on the wire. *)
Definition arg_bytes (a : arg) : string :=
  match a with
  | AStr s => s
  | ABytes b => b
  | AInt n => pretty n
  end.

(** The keys matching a pattern, in the order of the key table. *)
Definition matching (d : db) (pattern : string) : list string :=
  filter (λ k, glob pattern k = true) (fst <$> map_to_list (keys d)).

(** The options of SET that the Manager uses: NX and EX seconds. *)
Fixpoint set_opts (opts : list string) (nx : bool) (ex : option Z)
    : option (bool * option Z) :=
  match opts with
  | [] => Some (nx, ex)
  | o :: rest =>
      if bool_decide (o = "NX") then set_opts rest true ex
      else if bool_decide (o = "EX") then
        match rest with
        | n :: rest' =>
            match ParseInt n with
            | (v, None) => if 0 <? v then set_opts rest' nx (Some v) else None
            | _ => None
            end
        | [] => None
        end
      else None
  end.

(** The connections a message published on [channel] goes to. *)
Definition hears (channel : string) (s : conn * sub_kind * string) : bool :=
  match snd (fst s) with
  | Channel => bool_decide (snd s = channel)
  | Pattern => glob (snd s) channel
  end.

Definition receivers (d : db) (channel : string) : list conn :=
  (λ s, fst (fst s)) <$> filter (λ s, hears channel s = true) (subs d).

Definition subscribe (k : sub_kind) (c : conn) (names : list string) (d : db) : db :=
  Db (keys d) (subs d ++ ((λ n, (c, k, n)) <$> names)) (delivered d).

Definition wrong_args (name : string) : result :=
  inr (ErrServer ("ERR wrong number of arguments for '" +:+ name +:+ "' command")).

Definition exec (d : db) (c : conn) (cmd : command) : db * result :=
  let name := cmd_name cmd in
  let args := arg_bytes <$> cmd_args cmd in
  if bool_decide (name = "PING") then (d, inl (RStatus "PONG"))
  else if bool_decide (name = "EXISTS") then
    match args with
    | [k] => (d, inl (RInt (match keys d !! k with Some _ => 1 | None => 0 end)))
    | _ => (d, wrong_args name)
    end
  else if bool_decide (name = "GET") then
    match args with
    | [k] => (d, inl (match keys d !! k with
                      | Some e => RBulk (e_val e)
                      | None => RNil
                      end))
    | _ => (d, wrong_args name)
    end
  else if bool_decide (name = "DEL") then
    match args with
    | [] => (d, wrong_args name)
    | ks =>
        (Db (foldr delete (keys d) ks) (subs d) (delivered d),
         inl (RInt (Z.of_nat (size (keys d)) -
                    Z.of_nat (size (foldr delete (keys d) ks)))))
    end
  else if bool_decide (name = "SET") then
    match args with
    | k :: v :: opts =>
        match set_opts opts false None with
        | None => (d, inr (ErrServer "ERR syntax error"))
        | Some (nx, ex) =>
            if nx && bool_decide (is_Some (keys d !! k)) then (d, inl RNil)
            else (Db (<[k := Entry v ex]> (keys d)) (subs d) (delivered d),
                  inl (RStatus "OK"))
        end
    | _ => (d, wrong_args name)
    end
  else if bool_decide (name = "SETEX") then
    match args with
    | [k; n; v] =>
        match ParseInt n with
        | (s, None) =>
            if 0 <? s
            then (Db (<[k := Entry v (Some s)]> (keys d)) (subs d) (delivered d),
                  inl (RStatus "OK"))
            else (d, inr (ErrServer "ERR invalid expire time in 'setex' command"))
        | _ => (d, inr (ErrServer "ERR value is not an integer or out of range"))
        end
    | _ => (d, wrong_args name)
    end
  else if bool_decide (name = "KEYS") then
    match args with
    | [p] => (d, inl (RArr (RBulk <$> matching d p)))
    | _ => (d, wrong_args name)
    end
  else if bool_decide (name = "SCAN") then
    match args with
    | [_; m; p; cnt; _] =>
        if bool_decide (m = "MATCH") && bool_decide (cnt = "COUNT")
        then (d, inl (RArr [RBulk "0"; RArr (RBulk <$> matching d p)]))
        else (d, inr (ErrServer "ERR syntax error"))
    | _ => (d, inr (ErrServer "ERR syntax error"))
    end
  else if bool_decide (name = "PUBLISH") then
    match args with
    | [ch; msg] =>
        (Db (keys d) (subs d)
            (delivered d ++ ((λ r, (r, ch, msg)) <$> receivers d ch)),
         inl (RInt (Z.of_nat (length (receivers d ch)))))
    | _ => (d, wrong_args name)
    end
  else if bool_decide (name = "SUBSCRIBE") then
    match args with
    | [] => (d, wrong_args name)
    | names => (subscribe Channel c names d, inl RNil)
    end
  else if bool_decide (name = "PSUBSCRIBE") then
    match args with
    | [] => (d, wrong_args name)
    | names => (subscribe Pattern c names d, inl RNil)
    end
  else (d, inr (ErrServer ("ERR unknown command '" +:+ name +:+ "'"))).

(** Handing a connection back to the pool ends its subscriptions. *)
Definition release (d : db) (c : conn) : db :=
  Db (keys d) (filter (λ s, fst (fst s) ≠ c) (subs d)) (delivered d).

Definition start (d : db) : world db := World d [] 0%nat.
End Redis.

(** ** Scan-and-purge, as the specification describes it

    Starting from a cursor, one round asks the server for a batch with
    SCAN, deletes the batch with one DEL when it is not empty, and stops
    when the cursor that came back is 0; a failing SCAN or DEL ends the
    run with that error. [scan_and_purge full c s cursor trace s' o]
    relates the server [s] and the cursor before a run to the commands
    sent, the server after and the error returned. *)
Section ScanAndPurge.
Context {server : Type}.
Variable exec : server -> conn -> command -> server * result.

Definition scan_cmd (full : string) (cursor : Z) : command :=
  Cmd "SCAN" [AInt cursor; AStr "MATCH"; AStr full; AStr "COUNT"; AInt 100].

Definition del_cmd (keys : list string) : command := Cmd "DEL" (AStr <$> keys).

(** Deleting one batch: nothing is sent for an empty batch. *)
Inductive del_batch (c : conn) : server -> list string -> list command -> server -> Prop :=
  | del_batch_empty s : del_batch c s [] [] s
  | del_batch_keys s keys s' rep :
      keys ≠ [] ->
      exec s c (del_cmd keys) = (s', inl rep) ->
      del_batch c s keys [del_cmd keys] s'.

Inductive scan_and_purge (full : string) (c : conn)
    : server -> Z -> list command -> server -> option error -> Prop :=
  | purge_scan_failed s cursor s1 r e :
      exec s c (scan_cmd full cursor) = (s1, r) ->
      snd (decode redis_Values [] r) = Some e ->
      scan_and_purge full c s cursor [scan_cmd full cursor] s1
        (Some (ErrWrap "SCAN operation failed" e))
  | purge_del_failed s cursor s1 r0 r1 rest s2 e :
      exec s c (scan_cmd full cursor) = (s1, inl (RArr (r0 :: r1 :: rest))) ->
      fst (redis_Strings r1) ≠ [] ->
      exec s1 c (del_cmd (fst (redis_Strings r1))) = (s2, inr e) ->
      scan_and_purge full c s cursor
        [scan_cmd full cursor; del_cmd (fst (redis_Strings r1))] s2
        (Some (ErrWrap "DEL operation failed" e))
  | purge_done s cursor s1 r0 r1 rest dels s2 :
      exec s c (scan_cmd full cursor) = (s1, inl (RArr (r0 :: r1 :: rest))) ->
      del_batch c s1 (fst (redis_Strings r1)) dels s2 ->
      fst (redis_Int r0) = 0 ->
      scan_and_purge full c s cursor (scan_cmd full cursor :: dels) s2 None
  | purge_more s cursor s1 r0 r1 rest dels s2 trace s3 o :
      exec s c (scan_cmd full cursor) = (s1, inl (RArr (r0 :: r1 :: rest))) ->
      del_batch c s1 (fst (redis_Strings r1)) dels s2 ->
      fst (redis_Int r0) ≠ 0 ->
      scan_and_purge full c s2 (fst (redis_Int r0)) trace s3 o ->
      scan_and_purge full c s cursor (scan_cmd full cursor :: dels ++ trace) s3 o.



(** The two commands a scan-and-purge run may send. *)
Definition scan_or_del (full : string) (cmd : command) : Prop :=
  (∃ cursor, cmd = scan_cmd full cursor) ∨
  (∃ keys, keys ≠ [] ∧ cmd = del_cmd keys).
End ScanAndPurge.

(** ** A JSON codec for booleans, to run the JSON helpers on *)
Module BoolJSON.
Definition Marshal (b : bool) : string + error :=
  inl (if b then "true" else "false").

Definition Unmarshal (s : string) : bool + error :=
  if bool_decide (s = "true") then inl true
  else if bool_decide (s = "false") then inl false
  else inr (ErrJSON "invalid character").
End BoolJSON.

(** ** A model of the Redis server for lists

    LPUSH and RPUSH with one or more values, LPOP and RPOP of one
    element. A list that becomes empty is removed with its key. *)
Module RedisList.

(** LPUSH puts the values at the head one after the other, so the last
    value given ends up first; RPUSH puts them at the tail. *)
Definition push (name : string) (vs l : list string) : list string :=
  if bool_decide (name = "LPUSH") then reverse vs ++ l else l ++ vs.

Definition store (k : string) (l : list string) (d : gmap string (list string))
    : gmap string (list string) :=
  match l with
  | [] => delete k d
  | _ => <[k := l]> d
  end.

Definition exec (d : gmap string (list string)) (c : conn) (cmd : command)
    : gmap string (list string) * result :=
  let name := cmd_name cmd in
  let args := Redis.arg_bytes <$> cmd_args cmd in
  if bool_decide (name = "LPUSH") || bool_decide (name = "RPUSH") then
    match args with
    | k :: v :: vs =>
        let l := push name (v :: vs) (default [] (d !! k)) in
        (<[k := l]> d, inl (RInt (Z.of_nat (length l))))
    | _ => (d, Redis.wrong_args name)
    end
  else if bool_decide (name = "LPOP") then
    match args with
    | [k] =>
        match default [] (d !! k) with
        | [] => (d, inl RNil)
        | x :: rest => (store k rest d, inl (RBulk x))
        end
    | _ => (d, Redis.wrong_args name)
    end
  else if bool_decide (name = "RPOP") then
    match args with
    | [k] =>
        match reverse (default [] (d !! k)) with
        | [] => (d, inl RNil)
        | x :: rest => (store k (reverse rest) d, inl (RBulk x))
        end
    | _ => (d, Redis.wrong_args name)
    end
  else (d, inr (ErrServer ("ERR unknown command '" +:+ name +:+ "'"))).

Definition release (d : gmap string (list string)) (c : conn)
    : gmap string (list string) := d.

Definition start (d : gmap string (list string)) : world (gmap string (list string)) :=
  World d [] 0%nat.
End RedisList.

(** ** The options of [New] *)
Module Config.
(** [time.Duration] counts nanoseconds. *)
Definition Second : Z := 1000000000.

Definition DefaultMaxIdle : Z := 30.
Definition DefaultMaxActive : Z := 100.
Definition DefaultIdleTimeout : Z := 30 * Second.
Definition DefaultDB : Z := 0.
Definition DefaultNetwork : string := "tcp".

Record option_ := {
  network : string;
  address : string;
  password : string;
  prefix : string;
  maxIdle : Z;
  maxActive : Z;
  db : Z;
  idleTimeout : Z
}.

(** An [Option] is a function that updates the option struct it is
    given a pointer to. *)
Definition Option := option_ -> option_.

Definition WithAddress (address' : string) : Option := λ o,
  {| network := network o; address := address'; password := password o;
     prefix := prefix o; maxIdle := maxIdle o; maxActive := maxActive o;
     db := db o; idleTimeout := idleTimeout o |}.

Definition WithNetwork (network' : string) : Option := λ o,
  {| network := network'; address := address o; password := password o;
     prefix := prefix o; maxIdle := maxIdle o; maxActive := maxActive o;
     db := db o; idleTimeout := idleTimeout o |}.

Definition WithPassword (password' : string) : Option := λ o,
  {| network := network o; address := address o; password := password';
     prefix := prefix o; maxIdle := maxIdle o; maxActive := maxActive o;
     db := db o; idleTimeout := idleTimeout o |}.

Definition WithPrefix (prefix' : string) : Option := λ o,
  {| network := network o; address := address o; password := password o;
     prefix := prefix' +:+ ":"; maxIdle := maxIdle o; maxActive := maxActive o;
     db := db o; idleTimeout := idleTimeout o |}.

Definition WithMaxActive (maxActive' : Z) : Option := λ o,
  {| network := network o; address := address o; password := password o;
     prefix := prefix o; maxIdle := maxIdle o; maxActive := maxActive';
     db := db o; idleTimeout := idleTimeout o |}.

Definition WithDB (db' : Z) : Option := λ o,
  {| network := network o; address := address o; password := password o;
     prefix := prefix o; maxIdle := maxIdle o; maxActive := maxActive o;
     db := db'; idleTimeout := idleTimeout o |}.

Definition WithMaxIdle (maxIdle' : Z) : Option := λ o,
  {| network := network o; address := address o; password := password o;
     prefix := prefix o; maxIdle := maxIdle'; maxActive := maxActive o;
     db := db o; idleTimeout := idleTimeout o |}.

Definition WithIdleTimeout (idleTimeout' : Z) : Option := λ o,
  {| network := network o; address := address o; password := password o;
     prefix := prefix o; maxIdle := maxIdle o; maxActive := maxActive o;
     db := db o; idleTimeout := idleTimeout' |}.

(** The fields of [redis.Pool] that [New] sets, with the arguments its
    [Dial] passes to [redis.Dial]. *)
Record Pool := {
  MaxIdle : Z;
  MaxActive : Z;
  IdleTimeout : Z;
  Wait : bool;
  dial_network : string;
  dial_address : string;
  dial_password : string;
  dial_db : Z
}.

(** The option struct after [for _, f := range opts { f(opt) }]. *)
Definition options (opts : list Option) : option_ :=
  foldl (λ opt f, f opt)
    {| network := DefaultNetwork; address := ""; password := ""; prefix := "";
       maxIdle := DefaultMaxIdle; maxActive := DefaultMaxActive;
       db := DefaultDB; idleTimeout := DefaultIdleTimeout |}
    opts.

Definition connPool (opt : option_) : Pool :=
  {| MaxIdle := maxIdle opt; MaxActive := maxActive opt;
     IdleTimeout := idleTimeout opt; Wait := true;
     dial_network := network opt; dial_address := address opt;
     dial_password := password opt; dial_db := db opt |}.

Section New.
Context {server : Type}.
Variable exec : server -> conn -> command -> server * result.
Variable release : server -> conn -> server.

(** The manager is the pair of its [Prefix] and its [ConnPool]; it is
    returned together with the error of the ping. *)
Definition New (opts : list Option) : M (Manager * Pool * option error) :=
  let opt := options opts in
  let m := {| Prefix := prefix opt |} in
  err ← Ping exec release m;
  mret (m, connPool opt, err).
End New.
End Config.

(** ** A JSON codec with a value that cannot be marshalled (a channel),
    to run the JSON list helpers on *)
Module ValJSON.
Inductive val :=
  | VBool (b : bool)
  | VChan.

Definition Marshal (v : val) : string + error :=
  match v with
  | VBool b => BoolJSON.Marshal b
  | VChan => inr (ErrJSON "json: unsupported type: chan int")
  end.

Definition Unmarshal (s : string) : val + error :=
  match BoolJSON.Unmarshal s with
  | inl b => inl (VBool b)
  | inr e => inr e
  end.
End ValJSON.

(** ** A JSON codec for numbers held in an interface

    [json.Marshal] writes an int and a float64 of the same whole value
    with the same digits; [json.Unmarshal] into an interface stores a
    JSON number as a float64. [Float64 n] is the float64 whose value is
    the whole number [n]. *)
Module NumJSON.
Inductive num :=
  | Int (n : Z)
  | Float64 (n : Z).

Definition Marshal (v : num) : string + error :=
  match v with
  | Int n | Float64 n => inl (pretty n)
  end.

Definition Unmarshal (s : string) : num + error :=
  match ParseInt s with
  | (n, None) => inl (Float64 n)
  | (_, Some _) => inr (ErrJSON "invalid character")
  end.
End NumJSON.

(** * Properties *)

(** Unfold a method down to the calls of [exec] and [release]. *)
Ltac run :=
  unfold Do, Exists, Del, BatchDel, Set_, SetString, GetString, Get, SetNX,
    SetNX_body, Decr, HSet, Publish, Subscribe, PSubscribe, subscribe_with,
    psc_send, SetJSON, GetJSON, GetJSON_body, DelWithContext,
    BatchDelWithContext, SetWithContext, SetStringWithContext,
    GetStringWithContext, GetWithContext, SetNXWithContext, DecrWithContext,
    HSetWithContext, PublishWithContext, SubscribeWithContext,
    PSubscribeWithContext, subscribe_ctx_with, SetJSONWithContext,
    GetJSONWithContext, Legacy.BatchDel, Legacy.Hset,
    with_conn, with_conn_ctx, pool_GetContext, pool_Get, conn_Do, conn_Close,
    mbind, mret, M_bind, M_ret in *;
  cbn [srv sent next_conn fst snd] in *.

(** The same for the connection check, the lists, the sorted sets and
    [New]. *)
Ltac run_lists :=
  unfold Config.New, Ping, LPop, RPop, LPush, RPush, LPushJSON, RPushJSON,
    push_json, LPopJSON, RPopJSON, pop_json, ZRangeWithScores,
    ZRevRangeWithScores, range_with_scores, Legacy.Get,
    Legacy.ZrevrangeResArr in *;
  run.

Section ClientFacts.
Context {server : Type}.
Variable exec : server -> conn -> command -> server * result.
Variable release : server -> conn -> server.

(** *** Which command a method sends *)

Lemma HSet_sends_HSET m key field value w :
  sent (snd (HSet exec release m key field value w)) =
  sent w ++ [Cmd "HSET" [AStr (Prefix m +:+ key); AStr field; value]].
Proof. run. destruct (exec _ _ _); reflexivity. Qed.

Lemma HSetWithContext_sends_HSET m key field value w :
  sent (snd (HSetWithContext exec release {| ctx_Err := None |} m key field value w)) =
  sent w ++ [Cmd "HSET" [AStr (Prefix m +:+ key); AStr field; value]].
Proof. run. cbn. destruct (exec _ _ _); reflexivity. Qed.

Lemma Decr_sends_DECR m key w :
  sent (snd (Decr exec release m key w)) =
  sent w ++ [Cmd "DECR" [AStr (Prefix m +:+ key)]].
Proof. run. destruct (exec _ _ _); reflexivity. Qed.

Lemma DecrWithContext_sends_DECR m key w :
  sent (snd (DecrWithContext exec release {| ctx_Err := None |} m key w)) =
  sent w ++ [Cmd "DECR" [AStr (Prefix m +:+ key)]].
Proof. apply Decr_sends_DECR. Qed.

(** C5, at the method that breaks it. [Hset] of the older redis.go
    sends INCR on the prefixed key, whatever field and value it is
    given; no HSET is sent. *)
Theorem Legacy_Hset_sends_INCR m key field value w :
  sent (snd (Legacy.Hset exec release m key field value w)) =
  sent w ++ [Cmd "INCR" [AStr (Prefix m +:+ key)]].
Proof. run. destruct (exec _ _ _); reflexivity. Qed.

(** *** Expiration *)


(** *** Set only if absent *)

(** The command [SetNX] and [SetNXWithContext] send. *)
Lemma SetNX_body_spec m key value sec c w :
  let cmd := Cmd "SET" ([AStr (Prefix m +:+ key); value; AStr "NX"] ++
                        (if 0 <? sec then [AStr "EX"; AInt sec] else [])) in
  let rep := snd (exec (srv w) c cmd) in
  (rep = inl RNil -> fst (SetNX_body exec m key value sec c w) = (false, None)) ∧
  (fst (SetNX_body exec m key value sec c w) = (true, None) <->
   rep = inl (RStatus "OK") ∨ rep = inl (RBulk "OK")).
Proof.
  intros cmd rep. subst cmd rep. run.
  destruct (0 <? sec); cbn [app];
    destruct (exec _ _ _) as [s' r]; cbn [fst snd];
    (split; [intros ->; reflexivity|]);
    (destruct r as [[| n | b | st | l | msg] | e]; cbn;
     [ | | | | | | destruct (errors_Is e ErrNil)]; cbn;
     try (split; [intros [=] | intros [[=]|[=]]]; fail)).
  all: split;
    [ intros [= H]; apply bool_decide_eq_true in H; subst; auto
    | intros [[= ->]|[= ->]]; reflexivity ].
Qed.

(** What a method returns is what its body returns on the borrowed
    connection. *)
Lemma fst_with_conn {A} (body : conn -> M A) w :
  fst (with_conn release body w) =
  fst (body (next_conn w) (World (srv w) (sent w) (S (next_conn w)))).
Proof. run. destruct (body _ _); reflexivity. Qed.

Lemma fst_with_conn_ctx {A} ctx (on_err : error -> A) (body : conn -> M A) w :
  fst (with_conn_ctx release ctx on_err body w) =
  match ctx_Err ctx with
  | Some e => on_err e
  | None => fst (body (next_conn w) (World (srv w) (sent w) (S (next_conn w))))
  end.
Proof. run. destruct (ctx_Err ctx); cbn; [reflexivity|]. destruct (body _ _); reflexivity. Qed.

(** C3. When the server answers the SET ... NX of [SetNX] with a nil
    reply, [SetNX] returns false and no error; it returns true and no
    error exactly when the answer is OK. [SetNXWithContext] does the
    same once the pool has given it a connection, and never returns
    true without one. *)
Theorem SetNX_nil_reply_is_false_without_error m key value sec w :
  let cmd := Cmd "SET" ([AStr (Prefix m +:+ key); value; AStr "NX"] ++
                        (if 0 <? sec then [AStr "EX"; AInt sec] else [])) in
  let rep := snd (exec (srv w) (next_conn w) cmd) in
  (rep = inl RNil ->
     fst (SetNX exec release m key value sec w) = (false, None) ∧
     fst (SetNXWithContext exec release {| ctx_Err := None |} m key value sec w) =
       (false, None)) ∧
  (fst (SetNX exec release m key value sec w) = (true, None) <->
     rep = inl (RStatus "OK") ∨ rep = inl (RBulk "OK")) ∧
  (∀ ctx, fst (SetNXWithContext exec release ctx m key value sec w) = (true, None) <->
     ctx_Err ctx = None ∧ (rep = inl (RStatus "OK") ∨ rep = inl (RBulk "OK"))).
Proof.
  intros cmd rep.
  pose proof (SetNX_body_spec m key value sec (next_conn w)
                (World (srv w) (sent w) (S (next_conn w)))) as [Hnil Hok].
  cbn [srv] in Hnil, Hok. fold cmd in Hnil, Hok. fold rep in Hnil, Hok.
  unfold SetNX, SetNXWithContext.
  rewrite fst_with_conn. repeat split.
  - auto.
  - rewrite fst_with_conn_ctx. cbn. auto.
  - apply Hok.
  - apply Hok.
  - rewrite fst_with_conn_ctx in H. destruct (ctx_Err ctx); [discriminate | reflexivity].
  - rewrite fst_with_conn_ctx in H. destruct (ctx_Err ctx); [discriminate | apply Hok, H].
  - intros [Hc Hr]. rewrite fst_with_conn_ctx, Hc. apply Hok, Hr.
Qed.

(** *** The loop of the batch delete *)

(** One round of the loop. *)
Lemma BatchDel_loop_step fuel c full cursor w :
  BatchDel_loop exec (S fuel) c full cursor w =
  let '(s1, r) := exec (srv w) c (scan_cmd full cursor) in
  let w1 := World s1 (sent w ++ [scan_cmd full cursor]) (next_conn w) in
  match decode redis_Values [] r with
  | (_, Some err) => (Returned (Some (ErrWrap "SCAN operation failed" err)), w1)
  | (rep, None) =>
    match rep with
    | r0 :: r1 :: _ =>
      let keys := fst (redis_Strings r1) in
      match keys with
      | [] =>
          if fst (redis_Int r0) =? 0 then (Returned None, w1)
          else BatchDel_loop exec fuel c full (fst (redis_Int r0)) w1
      | _ :: _ =>
          let '(s2, d) := exec s1 c (del_cmd keys) in
          let w2 := World s2 (sent w ++ [scan_cmd full cursor; del_cmd keys]) (next_conn w) in
          match d with
          | inr err => (Returned (Some (ErrWrap "DEL operation failed" err)), w2)
          | inl _ =>
              if fst (redis_Int r0) =? 0 then (Returned None, w2)
              else BatchDel_loop exec fuel c full (fst (redis_Int r0)) w2
          end
      end
    | _ => (Panicked, w1)
    end
  end.
Proof.
  cbn [BatchDel_loop]. unfold mbind, M_bind, conn_Do, scan_cmd, del_cmd, AddFlat.
  destruct (exec (srv w) c _) as [s1 r].
  destruct (decode redis_Values [] r) as [rep [err|]]; [destruct rep; reflexivity|].
  destruct rep as [|r0 [|r1 rest]]; try reflexivity.
  cbn zeta.
  destruct (fst (redis_Strings r1)) as [|k ks] eqn:Hk; cbn [length].
  - rewrite bool_decide_eq_false_2 by lia. unfold mret, M_ret.
    destruct (_ =? 0); reflexivity.
  - rewrite bool_decide_eq_true_2 by lia. unfold mret, M_ret.
    cbn [srv sent next_conn].
    destruct (exec s1 c _) as [s2 d]. rewrite <- (assoc_L (++)). cbn [app].
    destruct d; cbn [err_of]; [destruct (_ =? 0)|]; reflexivity.
Qed.

Lemma BatchDel_loop_sound fuel c full : ∀ cursor w o w',
  BatchDel_loop exec fuel c full cursor w = (Returned o, w') ->
  ∃ trace, w' = World (srv w') (sent w ++ trace) (next_conn w) ∧
           scan_and_purge exec full c (srv w) cursor trace (srv w') o.
Proof.
  induction fuel as [|fuel IH]; intros cursor w o w' Hrun; [discriminate|].
  rewrite BatchDel_loop_step in Hrun.
  destruct (exec (srv w) c (scan_cmd full cursor)) as [s1 r] eqn:Hscan.
  destruct (decode redis_Values [] r) as [rep [err|]] eqn:Hdec.
  { injection Hrun as <- <-. eexists; split; [reflexivity|].
    cbn [srv]. eapply purge_scan_failed; [exact Hscan|]. by rewrite Hdec. }
  destruct rep as [|r0 [|r1 rest]]; try discriminate.
  assert (r = inl (RArr (r0 :: r1 :: rest))) as ->.
  { destruct r as [[]|]; cbn in Hdec; congruence. }
  cbn zeta in Hrun.
  destruct (fst (redis_Strings r1)) as [|k ks] eqn:Hk.
  - destruct (fst (redis_Int r0) =? 0) eqn:Hc.
    + injection Hrun as <- <-. eexists; split; [reflexivity|]. cbn [srv].
      eapply purge_done; [exact Hscan| |by apply Z.eqb_eq].
      rewrite Hk. constructor.
    + apply IH in Hrun as (trace & Hw' & Hp). cbn [srv sent next_conn] in *.
      exists (scan_cmd full cursor :: [] ++ trace). split.
      * rewrite Hw' at 1. by rewrite <- (assoc_L (++)).
      * eapply purge_more; [exact Hscan| |by apply Z.eqb_neq|exact Hp].
        rewrite Hk. constructor.
  - destruct (exec s1 c (del_cmd (k :: ks))) as [s2 d] eqn:Hdel.
    destruct d as [rep|err].
    + destruct (fst (redis_Int r0) =? 0) eqn:Hc.
      * injection Hrun as <- <-. eexists; split; [reflexivity|]. cbn [srv].
        eapply purge_done; [exact Hscan| |by apply Z.eqb_eq].
        rewrite Hk. by econstructor.
      * apply IH in Hrun as (trace & Hw' & Hp). cbn [srv sent next_conn] in *.
        exists (scan_cmd full cursor :: [del_cmd (k :: ks)] ++ trace). split.
        -- rewrite Hw' at 1. by rewrite <- (assoc_L (++)).
        -- eapply purge_more; [exact Hscan| |by apply Z.eqb_neq|exact Hp].
           rewrite Hk. by econstructor.
    + injection Hrun as <- <-. eexists; split; [reflexivity|]. cbn [srv].
      rewrite <- Hk. eapply purge_del_failed; [exact Hscan| |].
      * by rewrite Hk.
      * by rewrite Hk.
Qed.

Lemma BatchDel_loop_complete full c s cursor trace s' o :
  scan_and_purge exec full c s cursor trace s' o ->
  ∀ snt nc, ∃ fuel,
    BatchDel_loop exec fuel c full cursor (World s snt nc) =
    (Returned o, World s' (snt ++ trace) nc).
Proof.
  induction 1 as [s cursor s1 r e Hscan Hdec
                 |s cursor s1 r0 r1 rest s2 e Hscan Hk Hdel
                 |s cursor s1 r0 r1 rest dels s2 Hscan Hdel Hc
                 |s cursor s1 r0 r1 rest dels s2 trace s3 o Hscan Hdel Hc Hrest IH];
    intros snt nc.
  - exists 1%nat. rewrite BatchDel_loop_step. cbn [srv sent next_conn].
    rewrite Hscan. destruct (decode redis_Values [] r) as [rep [err|]]; cbn in Hdec; [|discriminate].
    by injection Hdec as ->.
  - exists 1%nat. rewrite BatchDel_loop_step. cbn [srv sent next_conn].
    rewrite Hscan. cbn [decode redis_Values]. cbn zeta.
    destruct (fst (redis_Strings r1)) as [|k ks]; [done|].
    by rewrite Hdel.
  - exists 1%nat. rewrite BatchDel_loop_step. cbn [srv sent next_conn].
    rewrite Hscan. cbn [decode redis_Values]. cbn zeta.
    destruct Hdel as [s1|s1 keys s2 rep Hne Hdel].
    + by rewrite Hc.
    + destruct keys as [|k ks]; [done|]. by rewrite Hdel, Hc.
  - assert (Hc' : (fst (redis_Int r0) =? 0) = false) by by apply Z.eqb_neq.
    remember (fst (redis_Strings r1)) as keys eqn:Hk.
    destruct Hdel as [s1|s1 keys s2 rep Hne Hdel].
    + destruct (IH (snt ++ [scan_cmd full cursor]) nc) as [fuel Hrun].
      exists (S fuel). rewrite BatchDel_loop_step. cbn [srv sent next_conn].
      rewrite Hscan. cbn [decode redis_Values]. cbn zeta.
      rewrite <- Hk, Hc', Hrun. by rewrite <- (assoc_L (++)).
    + destruct keys as [|k ks]; [done|].
      destruct (IH (snt ++ [scan_cmd full cursor; del_cmd (k :: ks)]) nc) as [fuel Hrun].
      exists (S fuel). rewrite BatchDel_loop_step. cbn [srv sent next_conn].
      rewrite Hscan. cbn [decode redis_Values]. cbn zeta.
      rewrite <- Hk, Hdel, Hc', Hrun. by rewrite <- (assoc_L (++)).
Qed.

Lemma BatchDel_loop_commands fuel c full : ∀ cursor w,
  ∃ trace, sent (snd (BatchDel_loop exec fuel c full cursor w)) = sent w ++ trace ∧
           Forall (scan_or_del full) trace.
Proof.
  induction fuel as [|fuel IH]; intros cursor w.
  { exists []. cbn. split; [symmetry; apply app_nil_r|constructor]. }
  rewrite BatchDel_loop_step.
  assert (Hs : scan_or_del full (scan_cmd full cursor)) by (left; eauto).
  destruct (exec (srv w) c (scan_cmd full cursor)) as [s1 r].
  destruct (decode redis_Values [] r) as [rep [err|]].
  { exists [scan_cmd full cursor]. split; [done|by constructor]. }
  destruct rep as [|r0 [|r1 rest]];
    try (exists [scan_cmd full cursor]; split; [done|by constructor]).
  cbn zeta. destruct (fst (redis_Strings r1)) as [|k ks].
  - destruct (_ =? 0).
    + exists [scan_cmd full cursor]. split; [done|by constructor].
    + edestruct IH as (trace & -> & Hall). cbn [sent].
      exists (scan_cmd full cursor :: trace). split; [by rewrite <- (assoc_L (++))|by constructor].
  - assert (Hd : scan_or_del full (del_cmd (k :: ks))) by (right; by exists (k :: ks)).
    destruct (exec s1 c _) as [s2 [rep|err]].
    + destruct (_ =? 0).
      * exists [scan_cmd full cursor; del_cmd (k :: ks)].
        split; [done|constructor; [done|constructor; [done|constructor]]].
      * edestruct IH as (trace & -> & Hall). cbn [sent].
        exists (scan_cmd full cursor :: del_cmd (k :: ks) :: trace).
        split; [by rewrite <- (assoc_L (++))|constructor; [done|constructor; [done|done]]].
    + exists [scan_cmd full cursor; del_cmd (k :: ks)].
      split; [done|constructor; [done|constructor; [done|constructor]]].
Qed.

(** [BatchDel] and [BatchDelWithContext] are the loop, started at
    cursor 0 with the pattern wrapped in wildcards, on a borrowed
    connection that is handed back at the end. *)
Lemma BatchDel_run fuel m pattern w :
  BatchDel exec release fuel m pattern w =
  let '(o, w1) := BatchDel_loop exec fuel (next_conn w)
                    ("*" +:+ Prefix m +:+ pattern +:+ "*") 0
                    (World (srv w) (sent w) (S (next_conn w))) in
  (o, World (release (srv w1) (next_conn w)) (sent w1) (next_conn w1)).
Proof. run. destruct (BatchDel_loop _ _ _ _ _ _); reflexivity. Qed.

Lemma BatchDelWithContext_run fuel ctx m pattern w :
  BatchDelWithContext exec release fuel ctx m pattern w =
  match ctx_Err ctx with
  | Some e => (Returned (Some e), w)
  | None => BatchDel exec release fuel m pattern w
  end.
Proof. run. destruct (ctx_Err ctx); reflexivity. Qed.

Lemma BatchDel_returned fuel m pattern w o w' :
  BatchDel exec release fuel m pattern w = (Returned o, w') ->
  ∃ trace s',
    scan_and_purge exec ("*" +:+ Prefix m +:+ pattern +:+ "*") (next_conn w)
      (srv w) 0 trace s' o ∧
    w' = World (release s' (next_conn w)) (sent w ++ trace) (S (next_conn w)).
Proof.
  rewrite BatchDel_run.
  destruct (BatchDel_loop _ _ _ _ _ _) as [o1 w1] eqn:Hloop.
  intros [= -> <-].
  apply BatchDel_loop_sound in Hloop as (trace & Hw1 & Hp). cbn [srv sent next_conn] in *.
  exists trace, (srv w1). split; [exact Hp|]. rewrite Hw1. reflexivity.
Qed.

Lemma BatchDel_reaches m pattern w trace s' o :
  scan_and_purge exec ("*" +:+ Prefix m +:+ pattern +:+ "*") (next_conn w)
    (srv w) 0 trace s' o ->
  ∃ fuel,
    BatchDel exec release fuel m pattern w =
    (Returned o, World (release s' (next_conn w)) (sent w ++ trace) (S (next_conn w))).
Proof.
  intros Hp.
  destruct (BatchDel_loop_complete _ _ _ _ _ _ _ Hp (sent w) (S (next_conn w)))
    as [fuel Hloop].
  exists fuel. rewrite BatchDel_run, Hloop. reflexivity.
Qed.

Lemma BatchDel_commands fuel m pattern w :
  ∃ trace, sent (snd (BatchDel exec release fuel m pattern w)) = sent w ++ trace ∧
           Forall (scan_or_del ("*" +:+ Prefix m +:+ pattern +:+ "*")) trace.
Proof.
  rewrite BatchDel_run.
  destruct (BatchDel_loop_commands fuel (next_conn w)
              ("*" +:+ Prefix m +:+ pattern +:+ "*") 0
              (World (srv w) (sent w) (S (next_conn w)))) as (trace & Hs & Hall).
  destruct (BatchDel_loop _ _ _ _ _ _) as [o1 w1]. cbn in *. eauto.
Qed.

(** C2, for the scanning batch delete. [BatchDel] of the current
    redis.go and [BatchDelWithContext] run scan-and-purge from cursor 0
    with the pattern "*" + prefix + pattern + "*": they return nil
    exactly along a run in which every SCAN (with MATCH and COUNT 100)
    is followed by one DEL of its batch when the batch is not empty,
    the cursor that came back is the cursor of the next SCAN, and the
    last SCAN came back with cursor 0. Whatever happens, the only
    commands they send are such SCANs and DELs of a non-empty batch. *)
Theorem BatchDel_scans_and_purges m pattern w :
  let full := "*" +:+ Prefix m +:+ pattern +:+ "*" in
  let c := next_conn w in
  let ctx := {| ctx_Err := None |} in
  (∀ fuel w',
     BatchDel exec release fuel m pattern w = (Returned None, w') ∨
     BatchDelWithContext exec release fuel ctx m pattern w = (Returned None, w') ->
     ∃ trace s',
       scan_and_purge exec full c (srv w) 0 trace s' None ∧
       w' = World (release s' c) (sent w ++ trace) (S c)) ∧
  (∀ trace s',
     scan_and_purge exec full c (srv w) 0 trace s' None ->
     ∃ fuel,
       BatchDel exec release fuel m pattern w =
         (Returned None, World (release s' c) (sent w ++ trace) (S c)) ∧
       BatchDelWithContext exec release fuel ctx m pattern w =
         (Returned None, World (release s' c) (sent w ++ trace) (S c))) ∧
  (∀ fuel, ∃ trace,
     sent (snd (BatchDel exec release fuel m pattern w)) = sent w ++ trace ∧
     Forall (scan_or_del full) trace) ∧
  (∀ fuel any_ctx, ∃ trace,
     sent (snd (BatchDelWithContext exec release fuel any_ctx m pattern w)) =
       sent w ++ trace ∧
     Forall (scan_or_del full) trace).
Proof.
  intros full c ctx. repeat split.
  - intros fuel w' [Hrun|Hrun].
    + by apply BatchDel_returned in Hrun.
    + rewrite BatchDelWithContext_run in Hrun. by apply BatchDel_returned in Hrun.
  - intros trace s' Hp. apply BatchDel_reaches in Hp as [fuel Hrun].
    exists fuel. by rewrite BatchDelWithContext_run.
  - intros fuel. apply BatchDel_commands.
  - intros fuel any_ctx. rewrite BatchDelWithContext_run.
    destruct (ctx_Err any_ctx).
    + exists []. split; [symmetry; apply app_nil_r|constructor].
    + apply BatchDel_commands.
Qed.

(** *** Failure of the batch delete *)





(** *** Publish and subscribe *)

Lemma prefix_all_strings m (names : list string) :
  prefix_all m (AStr <$> names) = Some (AStr <$> ((λ n, Prefix m +:+ n) <$> names)).
Proof. induction names as [|n names IH]; cbn; [reflexivity|by rewrite IH]. Qed.




End ClientFacts.

(** ** The Manager against the model of the Redis server *)
Section RedisFacts.
Import Redis.

Lemma exec_EXISTS d c k :
  exec d c (Cmd "EXISTS" [AStr k]) =
  (d, inl (RInt (match keys d !! k with Some _ => 1 | None => 0 end))).
Proof. reflexivity. Qed.

Lemma exec_GET d c k :
  exec d c (Cmd "GET" [AStr k]) =
  (d, inl (match keys d !! k with Some e => RBulk (e_val e) | None => RNil end)).
Proof. reflexivity. Qed.

Lemma exec_DEL_keys d c k :
  keys (fst (exec d c (Cmd "DEL" [AStr k]))) = delete k (keys d).
Proof. reflexivity. Qed.

(** SET leaves the keys as they are or writes the one key it names. *)
Lemma exec_SET_keys d c k v opts :
  keys (fst (exec d c (Cmd "SET" (AStr k :: v :: opts)))) = keys d ∨
  ∃ e, keys (fst (exec d c (Cmd "SET" (AStr k :: v :: opts)))) = <[k := e]> (keys d).
Proof.
  unfold exec. cbn [cmd_name cmd_args fmap list_fmap arg_bytes].
  change (bool_decide ("SET" = "PING")) with false.
  change (bool_decide ("SET" = "EXISTS")) with false.
  change (bool_decide ("SET" = "GET")) with false.
  change (bool_decide ("SET" = "DEL")) with false.
  change (bool_decide ("SET" = "SET")) with true.
  cbv iota.
  destruct (set_opts _ _ _) as [[nx ex]|]; [|by left].
  destruct (nx && _); [by left|right; eauto].
Qed.

Lemma exec_SET_other d c k v opts k' :
  k' ≠ k ->
  keys (fst (exec d c (Cmd "SET" (AStr k :: v :: opts)))) !! k' = keys d !! k'.
Proof.
  intros Hne. destruct (exec_SET_keys d c k v opts) as [->|[e ->]]; [done|].
  by rewrite lookup_insert_ne.
Qed.

(** *** Reading a key *)

Lemma Get_redis m key w :
  Get exec release m key w =
  match keys (srv w) !! (Prefix m +:+ key) with
  | Some e =>
      ((Some (e_val e), None),
       World (release (srv w) (next_conn w))
             (sent w ++ [Cmd "EXISTS" [AStr (Prefix m +:+ key)];
                         Cmd "GET" [AStr (Prefix m +:+ key)]])
             (S (next_conn w)))
  | None =>
      ((None, Some ErrNil),
       World (release (srv w) (next_conn w))
             (sent w ++ [Cmd "EXISTS" [AStr (Prefix m +:+ key)]])
             (S (next_conn w)))
  end.
Proof.
  run. unfold prefixKey. rewrite exec_EXISTS. cbn.
  destruct (keys (srv w) !! (Prefix m +:+ key)) as [e|] eqn:Hk; cbn; [|reflexivity].
  rewrite exec_GET, Hk. cbn. by rewrite <- (assoc_L (++)).
Qed.

Lemma GetString_redis m key w :
  GetString exec release m key w =
  match keys (srv w) !! (Prefix m +:+ key) with
  | Some e =>
      ((e_val e, None),
       World (release (srv w) (next_conn w))
             (sent w ++ [Cmd "EXISTS" [AStr (Prefix m +:+ key)];
                         Cmd "GET" [AStr (Prefix m +:+ key)]])
             (S (next_conn w)))
  | None =>
      (("", None),
       World (release (srv w) (next_conn w))
             (sent w ++ [Cmd "EXISTS" [AStr (Prefix m +:+ key)]])
             (S (next_conn w)))
  end.
Proof.
  run. unfold prefixKey. rewrite exec_EXISTS. cbn.
  destruct (keys (srv w) !! (Prefix m +:+ key)) as [e|] eqn:Hk; cbn; [|reflexivity].
  rewrite exec_GET, Hk. cbn. by rewrite <- (assoc_L (++)).
Qed.

Lemma with_ctx_ok {A} (on_err : error -> A) (body : conn -> M A) (w : world db) :
  with_conn_ctx release {| ctx_Err := None |} on_err body w = with_conn release body w.
Proof. reflexivity. Qed.

(** C8. For a key that is not in the store, [Get] returns a nil slice
    and ErrNil after the EXISTS alone, no GET being sent; so does
    [GetWithContext] on a connection the pool gave it. The result is
    never an empty slice with a nil error. *)
Theorem Get_of_absent_key_is_ErrNil m key w :
  keys (srv w) !! (Prefix m +:+ key) = None ->
  let w' := World (release (srv w) (next_conn w))
                  (sent w ++ [Cmd "EXISTS" [AStr (Prefix m +:+ key)]])
                  (S (next_conn w)) in
  Get exec release m key w = ((None, Some ErrNil), w') ∧
  GetWithContext exec release {| ctx_Err := None |} m key w =
    ((None, Some ErrNil), w') ∧
  fst (Get exec release m key w) ≠ (Some "", None).
Proof.
  intros Habs w'. unfold GetWithContext. rewrite with_ctx_ok.
  fold (Get exec release m key). rewrite Get_redis, Habs. done.
Qed.

(** C4, as the code has it. [GetString] and [GetStringWithContext]
    send EXISTS for the prefixed key and then, only when the key is
    there, GET for it. For a key that is not in the store they return
    the empty string and no error, which is what they return for a key
    that holds the empty string. *)
Theorem GetString_checks_then_reads m key w :
  let pk := Prefix m +:+ key in
  let after cmds := World (release (srv w) (next_conn w)) (sent w ++ cmds)
                          (S (next_conn w)) in
  (keys (srv w) !! pk = None ->
     GetString exec release m key w =
       (("", None), after [Cmd "EXISTS" [AStr pk]]) ∧
     GetStringWithContext exec release {| ctx_Err := None |} m key w =
       (("", None), after [Cmd "EXISTS" [AStr pk]])) ∧
  (∀ e, keys (srv w) !! pk = Some e ->
     GetString exec release m key w =
       ((e_val e, None), after [Cmd "EXISTS" [AStr pk]; Cmd "GET" [AStr pk]]) ∧
     GetStringWithContext exec release {| ctx_Err := None |} m key w =
       ((e_val e, None), after [Cmd "EXISTS" [AStr pk]; Cmd "GET" [AStr pk]])).
Proof.
  intros pk after. unfold GetStringWithContext. rewrite with_ctx_ok.
  fold (GetString exec release m key). rewrite GetString_redis. fold pk.
  split; [intros ->; done|intros e ->; done].
Qed.

(** C7, as the code has it. When [json.Marshal] accepts [x], [SetJSON]
    with expiration 0 succeeds and a [GetJSON] of the same key after it
    returns what [json.Unmarshal] makes of the very bytes that
    [json.Marshal] gave: the store hands them back unchanged under
    prefix + key. So [GetJSON] succeeds and stores [x] through the
    pointer exactly when these bytes decode back to [x]; when they
    decode to another value, it succeeds with that value. *)
Theorem SetJSON_GetJSON_round_trip {T : Type}
    (Marshal : T -> string + error) (Unmarshal : string -> T + error)
    m key (x : T) jsonData w :
  Marshal x = inl jsonData ->
  let read := fst (GetJSON exec release Unmarshal m key
                     (snd (SetJSON exec release Marshal m key x 0 w))) in
  fst (SetJSON exec release Marshal m key x 0 w) = None ∧
  read = match Unmarshal jsonData with
         | inl y => (Some y, None)
         | inr e => (None, Some e)
         end ∧
  (Unmarshal jsonData = inl x -> read = (Some x, None)) ∧
  (∀ y, read = (Some y, None) -> Unmarshal jsonData = inl y).
Proof.
  intros HM read.
  assert (Hread : read = match Unmarshal jsonData with
                         | inl y => (Some y, None)
                         | inr e => (None, Some e)
                         end).
  { subst read. run. rewrite HM. cbn.
    change (exec (srv w) (next_conn w)
              (Cmd "SET" [AStr (Prefix m +:+ key); ABytes jsonData]))
      with (Db (<[Prefix m +:+ key := Entry jsonData None]> (keys (srv w)))
               (subs (srv w)) (delivered (srv w)), @inl reply error (RStatus "OK")).
    cbn. rewrite exec_GET. cbn. rewrite lookup_insert_eq. cbn.
    by destruct (Unmarshal jsonData). }
  split; [run; by rewrite HM|]. split; [exact Hread|]. rewrite Hread. split.
  - by intros ->.
  - intros y Hy. destruct (Unmarshal jsonData); congruence.
Qed.

(** *** Two managers on one store *)

Lemma append_length s1 s2 :
  String.length (s1 +:+ s2) = (String.length s1 + String.length s2)%nat.
Proof. induction s1 as [|a s1 IH]; simpl; [reflexivity|by rewrite IH]. Qed.

(** Go's string concatenation can be cancelled on the right. *)
Lemma append_inj_r s1 s2 k : s1 +:+ k = s2 +:+ k -> s1 = s2.
Proof.
  revert s2. induction s1 as [|a s1 IH]; intros [|b s2] Heq; simpl in Heq.
  - reflexivity.
  - apply (f_equal String.length) in Heq.
    simpl in Heq. rewrite !append_length in Heq. simpl in Heq. lia.
  - apply (f_equal String.length) in Heq.
    simpl in Heq. rewrite !append_length in Heq. simpl in Heq. lia.
  - injection Heq as -> Heq. f_equal. by apply IH.
Qed.

Lemma Exists_redis m key w :
  fst (Exists exec release m key w) =
  (bool_decide (is_Some (keys (srv w) !! (Prefix m +:+ key))), None).
Proof.
  run. unfold prefixKey. rewrite exec_EXISTS. cbn.
  destruct (keys (srv w) !! (Prefix m +:+ key)); reflexivity.
Qed.

(** What a manager sees of a key: the results of [Get] and [Exists]. *)
Lemma seen_by_lookup m key w1 w2 :
  keys (srv w1) !! (Prefix m +:+ key) = keys (srv w2) !! (Prefix m +:+ key) ->
  fst (Get exec release m key w1) = fst (Get exec release m key w2) ∧
  fst (Exists exec release m key w1) = fst (Exists exec release m key w2).
Proof.
  intros Heq. rewrite !Get_redis, !Exists_redis, Heq.
  destruct (keys (srv w2) !! _); done.
Qed.

Lemma Set_other m key data ttl w k' :
  k' ≠ Prefix m +:+ key ->
  keys (srv (snd (Set_ exec release m key data ttl w))) !! k' = keys (srv w) !! k'.
Proof.
  intros Hne. run. unfold prefixKey.
  destruct (0 <? ttl).
  - pose proof (exec_SET_other (srv w) (next_conn w) (Prefix m +:+ key) data
                  [AStr "EX"; AInt ttl] k' Hne) as H.
    destruct (exec _ _ _) as [s' r]. exact H.
  - pose proof (exec_SET_other (srv w) (next_conn w) (Prefix m +:+ key) data
                  [] k' Hne) as H.
    destruct (exec _ _ _) as [s' r]. exact H.
Qed.

Lemma SetString_other m key str ttl w k' :
  k' ≠ Prefix m +:+ key ->
  keys (srv (snd (SetString exec release m key str ttl w))) !! k' = keys (srv w) !! k'.
Proof. apply (Set_other m key (AStr str)). Qed.

Lemma SetNX_other m key value sec w k' :
  k' ≠ Prefix m +:+ key ->
  keys (srv (snd (SetNX exec release m key value sec w))) !! k' = keys (srv w) !! k'.
Proof.
  intros Hne. run. unfold prefixKey.
  destruct (0 <? sec); cbn [app].
  - pose proof (exec_SET_other (srv w) (next_conn w) (Prefix m +:+ key) value
                  [AStr "NX"; AStr "EX"; AInt sec] k' Hne) as H.
    destruct (exec _ _ _) as [s' r].
    destruct (decode redis_String "" r) as [rep [e|]]; [destruct (errors_Is e ErrNil)|]; exact H.
  - pose proof (exec_SET_other (srv w) (next_conn w) (Prefix m +:+ key) value
                  [AStr "NX"] k' Hne) as H.
    destruct (exec _ _ _) as [s' r].
    destruct (decode redis_String "" r) as [rep [e|]]; [destruct (errors_Is e ErrNil)|]; exact H.
Qed.

Lemma Del_other m key w k' :
  k' ≠ Prefix m +:+ key ->
  keys (srv (snd (Del exec release m key w))) !! k' = keys (srv w) !! k'.
Proof.
  intros Hne. run. unfold prefixKey.
  pose proof (exec_DEL_keys (srv w) (next_conn w) (Prefix m +:+ key)) as H.
  destruct (exec _ _ _) as [s' r]. cbn [fst snd srv release keys] in *.
  rewrite H. by rewrite lookup_delete_ne.
Qed.

(** C1, for the operations on one key. Two managers with different
    prefixes send different store keys for the same logical key, and
    what [B] sees of the key with [Get] and [Exists] is the same
    before and after [A] runs [Set], [SetString], [SetNX] or [Del] on
    it; these send the key as prefix + key. *)
Theorem different_prefixes_keep_single_keys_apart
    (A B : Manager) key (value : arg) (str : string) ttl w :
  Prefix A ≠ Prefix B ->
  let seen w := (fst (Get exec release B key w), fst (Exists exec release B key w)) in
  prefixKey A key ≠ prefixKey B key ∧
  seen (snd (Set_ exec release A key value ttl w)) = seen w ∧
  seen (snd (SetString exec release A key str ttl w)) = seen w ∧
  seen (snd (SetNX exec release A key value ttl w)) = seen w ∧
  seen (snd (Del exec release A key w)) = seen w ∧
  (∃ rest, sent (snd (Set_ exec release A key value ttl w)) =
             sent w ++ [Cmd "SET" (AStr (Prefix A +:+ key) :: rest)]) ∧
  sent (snd (Del exec release A key w)) =
    sent w ++ [Cmd "DEL" [AStr (Prefix A +:+ key)]].
Proof.
  intros Hpre seen.
  assert (Hne : Prefix B +:+ key ≠ Prefix A +:+ key).
  { intros Heq. apply Hpre. symmetry. by apply append_inj_r in Heq. }
  assert (Hseen : ∀ w1, keys (srv w1) !! (Prefix B +:+ key) =
                        keys (srv w) !! (Prefix B +:+ key) -> seen w1 = seen w).
  { intros w1 Heq. unfold seen. by destruct (seen_by_lookup B key w1 w Heq) as [-> ->]. }
  split; [unfold prefixKey; congruence|].
  split; [apply Hseen, Set_other, Hne|].
  split; [apply Hseen, SetString_other, Hne|].
  split; [apply Hseen, SetNX_other, Hne|].
  split; [apply Hseen, Del_other, Hne|].
  split.
  - run. unfold prefixKey. destruct (0 <? ttl); destruct (exec _ _ _); cbn; eauto.
  - run. reflexivity.
Qed.

(** *** Channels *)

End RedisFacts.

(** ** Runs on concrete inputs *)

(** C1 fails for the batch delete. Manager [A] has prefix "a:" and [B]
    has prefix "ba:". [B] stores "v" under the logical key "x"; then
    [A] runs [BatchDel] on the same logical key. The pattern it sends,
    "*a:x*", matches [B]'s store key "ba:x", and [B] no longer finds its
    value. *)
Lemma BatchDel_deletes_key_of_other_prefix :
  let A := WithPrefix "a" in
  let B := WithPrefix "ba" in
  let w1 := snd (Set_ Redis.exec Redis.release B "x" (AStr "v") 0
                   (Redis.start Redis.empty)) in
  let w2 := snd (BatchDel Redis.exec Redis.release 2 A "x" w1) in
  Prefix A ≠ Prefix B ∧
  fst (Get Redis.exec Redis.release B "x" w1) = (Some "v", None) ∧
  fst (BatchDel Redis.exec Redis.release 2 A "x" w1) = Returned None ∧
  sent w2 = sent w1 ++
    [Cmd "SCAN" [AInt 0; AStr "MATCH"; AStr "*a:x*"; AStr "COUNT"; AInt 100];
     Cmd "DEL" [AStr "ba:x"]] ∧
  fst (Get Redis.exec Redis.release B "x" w2) = (None, Some ErrNil).
Proof. vm_compute. repeat split; discriminate. Qed.

Lemma different_prefixes_witness :
  let A := WithPrefix "shop" in
  let B := WithPrefix "blog" in
  let w := snd (Set_ Redis.exec Redis.release B "cart" (AStr "3") 0
                  (Redis.start Redis.empty)) in
  Prefix A ≠ Prefix B ∧
  fst (Get Redis.exec Redis.release B "cart"
         (snd (Del Redis.exec Redis.release A "cart" w))) =
  fst (Get Redis.exec Redis.release B "cart" w).
Proof.
  intros A B w. split; [discriminate|].
  destruct (different_prefixes_keep_single_keys_apart A B "cart" (AStr "v") "s" 0 w
              ltac:(discriminate)) as (_ & _ & _ & _ & H & _).
  exact (f_equal fst H).
Defined.

(** C2 fails for the [BatchDel] of the older redis.go: it asks for all
    matching keys at once with KEYS and deletes them one DEL at a time;
    there is no cursor and no SCAN. *)
Lemma Legacy_BatchDel_lists_with_KEYS :
  let m := WithPrefix "app" in
  let w0 := Redis.start Redis.empty in
  let w1 := snd (Set_ Redis.exec Redis.release m "user1" (AStr "a") 0 w0) in
  let w2 := snd (Set_ Redis.exec Redis.release m "user2" (AStr "b") 0 w1) in
  let run := Legacy.BatchDel Redis.exec Redis.release m "user" w2 in
  fst run = None ∧
  sent (snd run) = sent w2 ++
    [Cmd "KEYS" [AStr "*app:user*"];
     Cmd "DEL" [AStr "app:user1"];
     Cmd "DEL" [AStr "app:user2"]] ∧
  ¬ scan_or_del "*app:user*" (Cmd "KEYS" [AStr "*app:user*"]).
Proof.
  vm_compute. split; [reflexivity|split; [reflexivity|]].
  intros [[cursor [=]]|[ks [_ [=]]]].
Qed.

Lemma BatchDel_scans_and_purges_witness :
  let script : list result :=
    [inl (RArr [RBulk "7"; RArr [RBulk "app:user1"; RBulk "app:user2"]]);
     inl (RInt 2);
     inl (RArr [RBulk "0"; RArr []])] in
  ∃ trace s',
    scan_and_purge Scripted.exec "*app:user*" 0%nat script 0 trace s' None ∧
    World [] [scan_cmd "*app:user*" 0; del_cmd ["app:user1"; "app:user2"];
              scan_cmd "*app:user*" 7] 1%nat =
    World (Scripted.release s' 0%nat) ([] ++ trace) 1%nat.
Proof.
  intros script.
  destruct (BatchDel_scans_and_purges Scripted.exec Scripted.release
              (WithPrefix "app") "user" (Scripted.start script)) as [H _].
  apply (H 2%nat). left. vm_compute. reflexivity.
Defined.

Lemma SetNX_nil_reply_witness :
  let w := Scripted.start [inl RNil] in
  fst (SetNX Scripted.exec Scripted.release (WithPrefix "app") "lock" (AStr "1") 30 w) =
    (false, None) ∧
  fst (SetNXWithContext Scripted.exec Scripted.release {| ctx_Err := None |}
         (WithPrefix "app") "lock" (AStr "1") 30 w) = (false, None).
Proof.
  intros w.
  destruct (SetNX_nil_reply_is_false_without_error Scripted.exec Scripted.release
              (WithPrefix "app") "lock" (AStr "1") 30 w) as [H _].
  apply H. reflexivity.
Defined.

(** C4 fails as stated: for the same key, [GetString] returns the empty
    string and no error both when the key is not in the store and when it
    holds the empty string. *)
Lemma GetString_absent_like_empty :
  let m := WithPrefix "app" in
  let absent := Redis.start Redis.empty in
  let holds_empty := snd (SetString Redis.exec Redis.release m "name" "" 0 absent) in
  Redis.keys (srv absent) !! "app:name" = None ∧
  Redis.keys (srv holds_empty) !! "app:name" = Some (Redis.Entry "" None) ∧
  fst (GetString Redis.exec Redis.release m "name" absent) = ("", None) ∧
  fst (GetString Redis.exec Redis.release m "name" holds_empty) = ("", None) ∧
  fst (GetStringWithContext Redis.exec Redis.release {| ctx_Err := None |} m "name" absent) =
  fst (GetStringWithContext Redis.exec Redis.release {| ctx_Err := None |} m "name" holds_empty).
Proof. vm_compute. repeat split. Qed.

Lemma GetString_checks_then_reads_witness :
  let m := WithPrefix "app" in
  let w := Redis.start Redis.empty in
  GetString Redis.exec Redis.release m "name" w =
    (("", None), World (Redis.release (srv w) 0%nat)
                       [Cmd "EXISTS" [AStr "app:name"]] 1%nat).
Proof.
  intros m w.
  destruct (GetString_checks_then_reads m "name" w) as [H _].
  destruct (H eq_refl) as [H1 _]. exact H1.
Defined.

(** C5 at a concrete call: [Hset] on key "hget", field "a", value "1"
    sends INCR of the key and returns what INCR answered. *)
Lemma Legacy_Hset_example :
  Legacy.Hset Scripted.exec Scripted.release (WithPrefix "redisTest") "hget" "a" "1"
    (Scripted.start [inl (RInt 1)]) =
  ((1, None), World [] [Cmd "INCR" [AStr "redisTest:hget"]] 1%nat).
Proof. reflexivity. Qed.



(** C7 does not hold for every value [json.Marshal] accepts. The int 1
    held in an interface is written as the digit 1, which
    [json.Unmarshal] reads into an interface as the float64 1: both
    calls succeed and the value that comes back is not the one stored. *)
Lemma SetJSON_GetJSON_returns_a_float64 :
  let m := WithPrefix "app" in
  let w := Redis.start Redis.empty in
  fst (SetJSON Redis.exec Redis.release NumJSON.Marshal m "n" (NumJSON.Int 1) 0 w) = None ∧
  fst (GetJSON Redis.exec Redis.release NumJSON.Unmarshal m "n"
         (snd (SetJSON Redis.exec Redis.release NumJSON.Marshal m "n" (NumJSON.Int 1) 0 w))) =
    (Some (NumJSON.Float64 1), None) ∧
  NumJSON.Float64 1 ≠ NumJSON.Int 1.
Proof. vm_compute. repeat split. discriminate. Qed.

(** C7 at work: a boolean, which decodes back to itself. *)
Lemma SetJSON_GetJSON_witness :
  let m := WithPrefix "app" in
  let w := Redis.start Redis.empty in
  fst (SetJSON Redis.exec Redis.release BoolJSON.Marshal m "flag" true 0 w) = None ∧
  fst (GetJSON Redis.exec Redis.release BoolJSON.Unmarshal m "flag"
         (snd (SetJSON Redis.exec Redis.release BoolJSON.Marshal m "flag" true 0 w))) =
    (Some true, None).
Proof.
  intros m w.
  destruct (SetJSON_GetJSON_round_trip BoolJSON.Marshal BoolJSON.Unmarshal
              m "flag" true "true" w eq_refl) as (H1 & _ & H3 & _).
  split; [exact H1|exact (H3 eq_refl)].
Defined.

Lemma Get_of_absent_key_witness :
  let m := WithPrefix "app" in
  let w := Redis.start Redis.empty in
  Redis.keys (srv w) !! (Prefix m +:+ "nonexistent") = None ∧
  fst (Get Redis.exec Redis.release m "nonexistent" w) = (None, Some ErrNil).
Proof.
  intros m w. split; [reflexivity|].
  destruct (Get_of_absent_key_is_ErrNil m "nonexistent" w eq_refl) as [H _].
  exact (f_equal fst H).
Defined.




(** * Further properties of the code *)

(** ** strconv.ParseInt reads back what redigo writes for an int *)

Lemma digit_of_pretty_N_char d :
  (d < 10)%N -> digit_of (pretty_N_char d) = Some (Z.of_N d).
Proof.
  intros Hd.
  assert (d = 0 ∨ d = 1 ∨ d = 2 ∨ d = 3 ∨ d = 4 ∨ d = 5 ∨ d = 6 ∨ d = 7 ∨ d = 8 ∨ d = 9)%N
    as Hcases by lia.
  repeat (destruct Hcases as [->|Hcases]; [reflexivity|]). subst. reflexivity.
Qed.

(** Parsing what [pretty_N_go] put in front of [s] shifts the digits of
    [x] into the accumulator. *)
Lemma parse_digits_pretty_N_go x : ∀ s,
  ∃ k : Z, 0 <= k ∧ ∀ acc, parse_digits acc (pretty_N_go x s) =
                 parse_digits (acc * 10 ^ k + Z.of_N x) s.
Proof.
  induction (N.lt_wf_0 x) as [x _ IH]; intros s.
  assert (x = 0 ∨ 0 < x)%N as [->|Hpos] by lia.
  - exists 0. split; [lia|]. intros acc. rewrite pretty_N_go_0. f_equal. lia.
  - destruct (IH (x `div` 10)%N (N.div_lt x 10 Hpos eq_refl)
                (String (pretty_N_char (x `mod` 10)) s)) as (k & Hk & Hparse).
    exists (k + 1). split; [lia|]. intros acc.
    rewrite pretty_N_go_step by done. rewrite Hparse. cbn [parse_digits].
    rewrite digit_of_pretty_N_char by (apply N.mod_lt; lia).
    f_equal. rewrite Z.pow_add_r by lia.
    pose proof (N.div_mod x 10 ltac:(lia)) as Hdm.
    apply (f_equal Z.of_N) in Hdm. rewrite N2Z.inj_add, N2Z.inj_mul in Hdm.
    change (Z.of_N 10) with 10 in Hdm. lia.
Qed.

Lemma parse_digits_pretty_pos p :
  parse_digits 0 (pretty (N.pos p)) = Some (Z.pos p).
Proof.
  unfold pretty, pretty_N. rewrite decide_False by done.
  destruct (parse_digits_pretty_N_go (N.pos p) "") as (k & _ & H).
  rewrite H. cbn. done.
Qed.

Lemma pretty_pos_first p :
  ∃ c rest, pretty (N.pos p) = String c rest ∧ c ≠ "-"%char ∧ c ≠ "+"%char.
Proof.
  pose proof (parse_digits_pretty_pos p) as H.
  destruct (pretty (N.pos p)) as [|c rest] eqn:Hs.
  - discriminate.
  - exists c, rest. split; [done|]. cbn in H.
    split; intros ->; discriminate.
Qed.

Lemma ParseInt_pretty z :
  MinInt64 <= z <= MaxInt64 -> ParseInt (pretty z) = (z, None).
Proof.
  intros Hz. destruct z as [|p|p].
  - reflexivity.
  - change (pretty (Z.pos p)) with (pretty (N.pos p)).
    destruct (pretty_pos_first p) as (c & rest & Hs & Hm & Hp).
    pose proof (parse_digits_pretty_pos p) as Hd.
    rewrite Hs in *. unfold ParseInt.
    rewrite !bool_decide_eq_false_2 by done. cbn [orb].
    rewrite Hd. cbn [negb andb].
    destruct (2 ^ 63 <=? Z.pos p) eqn:Hle; [|reflexivity].
    apply Z.leb_le in Hle. unfold MaxInt64 in Hz. lia.
  - change (pretty (Z.neg p)) with ("-" +:+ pretty (N.pos p)).
    destruct (pretty_pos_first p) as (c & rest & Hs & Hm & Hp).
    pose proof (parse_digits_pretty_pos p) as Hd.
    rewrite Hs in *.
    change ("-" +:+ String c rest) with (String "-" (String c rest)). unfold ParseInt.
    change (bool_decide ("-"%char = "-"%char)) with true.
    change (bool_decide ("-"%char = "+"%char)) with false.
    cbn [orb]. cbv zeta. rewrite Hd. cbn [negb andb].
    destruct (2 ^ 63 <? Z.pos p) eqn:Hlt; [|reflexivity].
    apply Z.ltb_lt in Hlt. unfold MinInt64 in Hz. lia.
Qed.

(** ** Panics, JSON lists and sorted sets, for any server *)
Section MoreClientFacts.
Context {server : Type}.
Variable exec : server -> conn -> command -> server * result.
Variable release : server -> conn -> server.
Context {T F : Type}.
Variable Marshal : T -> string + error.
Variable Unmarshal : string -> T + error.
Variable ParseFloat : string -> F + error.

Lemma prefix_all_non_string m channels a :
  a ∈ channels -> (∀ s, a ≠ AStr s) -> prefix_all m channels = None.
Proof.
  intros Hin Ha. induction channels as [|b l IH]; [by apply elem_of_nil in Hin|].
  apply elem_of_cons in Hin as [<-|Hin]; cbn.
  - destruct a as [s| |]; [by destruct (Ha s)|done|done].
  - destruct b; [by rewrite IH|done|done].
Qed.

(** X3. A channel or pattern that is not a string. The type assertion
    [ch.(string)] panics while the names are being prefixed, before
    anything is sent, whatever the other names are. In [Subscribe] and
    [PSubscribe] the deferred Close still hands the connection back; in
    [SubscribeWithContext] and [PSubscribeWithContext], which close the
    connection only when subscribing fails, the connection taken from
    the pool is not handed back. *)
Theorem subscribing_to_a_non_string_panics_before_sending m channels a w :
  a ∈ channels ->
  (∀ s, a ≠ AStr s) ->
  let ctx := {| ctx_Err := None |} in
  let closed := World (release (srv w) (next_conn w)) (sent w) (S (next_conn w)) in
  let leaked := World (srv w) (sent w) (S (next_conn w)) in
  Subscribe exec release m channels w = (Panicked, closed) ∧
  PSubscribe exec release m channels w = (Panicked, closed) ∧
  SubscribeWithContext exec release ctx m channels w = (Panicked, leaked) ∧
  PSubscribeWithContext exec release ctx m channels w = (Panicked, leaked).
Proof.
  intros Hin Ha ctx closed leaked. run.
  rewrite (prefix_all_non_string m channels a Hin Ha). done.
Qed.

Lemma marshal_each_ok values : ∀ args js,
  Forall2 (λ v j, Marshal v = inl j) values js ->
  marshal_each Marshal args values = inl (args ++ (ABytes <$> js)).
Proof.
  induction values as [|v values IH]; intros args js Hall.
  - apply Forall2_nil_inv_l in Hall as ->. cbn. f_equal. symmetry. apply app_nil_r.
  - apply Forall2_cons_inv_l in Hall as (j & js' & Hj & Hall & ->).
    cbn. rewrite Hj, (IH _ js' Hall). by rewrite <- (assoc_L (++)).
Qed.

Lemma marshal_each_fails good : ∀ args js bad rest e,
  Forall2 (λ v j, Marshal v = inl j) good js ->
  Marshal bad = inr e ->
  marshal_each Marshal args (good ++ bad :: rest) = inr e.
Proof.
  induction good as [|v good IH]; intros args js bad rest e Hall Hbad.
  - cbn. by rewrite Hbad.
  - apply Forall2_cons_inv_l in Hall as (j & js' & Hj & Hall & ->).
    cbn. rewrite Hj. by apply (IH _ js').
Qed.

(** X4. [LPushJSON] and [RPushJSON] push all the values or none. When
    one of the values cannot be marshalled, the error of the first such
    value is returned and no command is sent, although the values
    before it were marshalled; the connection is handed back. *)
Theorem PushJSON_sends_nothing_when_a_value_fails m key good js bad rest e w :
  Forall2 (λ v j, Marshal v = inl j) good js ->
  Marshal bad = inr e ->
  let closed := World (release (srv w) (next_conn w)) (sent w) (S (next_conn w)) in
  LPushJSON exec release Marshal m key (good ++ bad :: rest) w = (Some e, closed) ∧
  RPushJSON exec release Marshal m key (good ++ bad :: rest) w = (Some e, closed).
Proof.
  intros Hgood Hbad closed. run_lists.
  by rewrite (marshal_each_fails good _ js bad rest e Hgood Hbad).
Qed.

(** X5. When every value can be marshalled, [LPushJSON] and
    [RPushJSON] send one LPUSH or RPUSH whose arguments are the prefixed
    key and the encodings of the values in the order given, and return
    the error of that command, if any. *)
Theorem PushJSON_sends_one_command m key values js w :
  Forall2 (λ v j, Marshal v = inl j) values js ->
  let args := AStr (Prefix m +:+ key) :: (ABytes <$> js) in
  sent (snd (LPushJSON exec release Marshal m key values w)) =
    sent w ++ [Cmd "LPUSH" args] ∧
  sent (snd (RPushJSON exec release Marshal m key values w)) =
    sent w ++ [Cmd "RPUSH" args] ∧
  fst (LPushJSON exec release Marshal m key values w) =
    err_of (snd (exec (srv w) (next_conn w) (Cmd "LPUSH" args))) ∧
  fst (RPushJSON exec release Marshal m key values w) =
    err_of (snd (exec (srv w) (next_conn w) (Cmd "RPUSH" args))).
Proof.
  intros Hall args. run_lists.
  rewrite (marshal_each_ok values _ js Hall).
  unfold prefixKey. cbn [app srv sent next_conn]. fold args.
  destruct (exec _ _ (Cmd "LPUSH" args)) as [s1 r1].
  destruct (exec _ _ (Cmd "RPUSH" args)) as [s2 r2]. done.
Qed.

Lemma zset_members_pairs ps : ∀ acc,
  Forall (λ p, ParseFloat p.1.2 = inl p.2) ps ->
  zset_members ParseFloat
    (concat ((λ p : string * string * F, [RBulk p.1.1; RBulk p.1.2]) <$> ps)) acc =
  Returned (acc ++ ((λ p, {| Score := p.2; Member := p.1.1 |}) <$> ps), None).
Proof.
  induction ps as [|[[mem s] f] ps IH]; intros acc Hall.
  - cbn. f_equal. f_equal. symmetry. apply app_nil_r.
  - apply Forall_cons in Hall as [Hp Hall]. cbn in Hp. cbn. rewrite Hp.
    rewrite (IH _ Hall). by rewrite <- (assoc_L (++)).
Qed.

Lemma zset_members_odd ps x : ∀ acc,
  Forall (λ p, ParseFloat p.1.2 = inl p.2) ps ->
  zset_members ParseFloat
    (concat ((λ p : string * string * F, [RBulk p.1.1; RBulk p.1.2]) <$> ps) ++ [x]) acc =
  Panicked.
Proof.
  induction ps as [|[[mem s] f] ps IH]; intros acc Hall.
  - reflexivity.
  - apply Forall_cons in Hall as [Hp Hall]. cbn in Hp. cbn. rewrite Hp.
    by apply IH.
Qed.

Lemma range_with_scores_fst name m key start stop c w r :
  snd (exec (srv w) c
         (Cmd name [AStr (Prefix m +:+ key); AInt start; AInt stop; AStr "WITHSCORES"])) = r ->
  fst (range_with_scores exec ParseFloat name m key start stop c w) =
  match decode redis_Values [] r with
  | (_, Some e) => Returned ([], Some e)
  | (values, None) => zset_members ParseFloat values []
  end.
Proof.
  intros <-. run_lists. unfold prefixKey.
  destruct (exec _ _ _) as [s' r]. cbn [snd].
  by destruct (decode redis_Values [] r) as [values [e|]].
Qed.

(** X6. [ZRangeWithScores] and [ZRevRangeWithScores] read the reply
    two elements at a time. For a reply made of member and score pairs
    whose scores parse, they return one [ZSetMember] per pair, in the
    order of the reply. For such a reply followed by one more element
    they panic (the index [i+1] is out of range), after parsing all the
    pairs. *)
Theorem scores_are_paired_with_members m key start stop
    (ps : list (string * string * F)) w :
  Forall (λ p, ParseFloat p.1.2 = inl p.2) ps ->
  let values := concat ((λ p, [RBulk p.1.1; RBulk p.1.2]) <$> ps) in
  let members := (λ p, {| Score := p.2; Member := p.1.1 |}) <$> ps in
  let reply name :=
    snd (exec (srv w) (next_conn w)
           (Cmd name [AStr (Prefix m +:+ key); AInt start; AInt stop; AStr "WITHSCORES"])) in
  (reply "ZRANGE" = inl (RArr values) ->
   fst (ZRangeWithScores exec release ParseFloat m key start stop w) =
     Returned (members, None)) ∧
  (reply "ZREVRANGE" = inl (RArr values) ->
   fst (ZRevRangeWithScores exec release ParseFloat m key start stop w) =
     Returned (members, None)) ∧
  (∀ x, reply "ZRANGE" = inl (RArr (values ++ [x])) ->
   fst (ZRangeWithScores exec release ParseFloat m key start stop w) = Panicked) ∧
  (∀ x, reply "ZREVRANGE" = inl (RArr (values ++ [x])) ->
   fst (ZRevRangeWithScores exec release ParseFloat m key start stop w) = Panicked).
Proof.
  intros Hall values members reply.
  unfold ZRangeWithScores, ZRevRangeWithScores. rewrite !fst_with_conn.
  cbn [next_conn].
  repeat split.
  - intros Hr. erewrite range_with_scores_fst by (cbn [srv]; exact Hr). cbn.
    apply (zset_members_pairs ps [] Hall).
  - intros Hr. erewrite range_with_scores_fst by (cbn [srv]; exact Hr). cbn.
    apply (zset_members_pairs ps [] Hall).
  - intros x Hr. erewrite range_with_scores_fst by (cbn [srv]; exact Hr). cbn.
    apply (zset_members_odd ps x [] Hall).
  - intros x Hr. erewrite range_with_scores_fst by (cbn [srv]; exact Hr). cbn.
    apply (zset_members_odd ps x [] Hall).
Qed.

(** The loop of the older [ZrevrangeResArr]. *)
Lemma ResArr_step_Panicked l is_ :
  foldl (Legacy.ResArr_step l) Panicked is_ = Panicked.
Proof. induction is_ as [|i is_ IH]; [done|apply IH]. Qed.

Lemma ResArr_step_pair l va sa i v s :
  (i `mod` 2 =? 0)%nat = true ->
  l !! i = Some (RBulk v) ->
  l !! (i + 1)%nat = Some (RBulk s) ->
  Legacy.ResArr_step l (Returned (va, sa)) i = Returned (va ++ [v], sa ++ [s]).
Proof.
  intros Hi Hv Hs. unfold Legacy.ResArr_step. rewrite Hi, Hv, Hs.
  apply lookup_lt_Some in Hs. apply Nat.ltb_lt in Hs. by rewrite Hs.
Qed.

Lemma ResArr_step_skip l acc i :
  (i `mod` 2 =? 0)%nat = false ∨ (length l <= i + 1)%nat ->
  Legacy.ResArr_step l acc i = acc.
Proof.
  intros Hi. unfold Legacy.ResArr_step. destruct acc as [[va sa]| |]; try done.
  destruct Hi as [->|Hi]; [done|].
  apply Nat.ltb_ge in Hi. rewrite Hi. by rewrite andb_false_r.
Qed.

Lemma ResArr_fold (ps : list (string * string)) : ∀ pre trailing n va sa,
  length pre = (2 * n)%nat ->
  (length trailing <= 1)%nat ->
  let suffix := concat ((λ p, [RBulk p.1; RBulk p.2]) <$> ps) ++ trailing in
  foldl (Legacy.ResArr_step (pre ++ suffix)) (Returned (va, sa))
        (seq (length pre) (length suffix)) =
  Returned (va ++ (fst <$> ps), sa ++ (snd <$> ps)).
Proof.
  induction ps as [|[v s] ps IH]; intros pre trailing n va sa Hpre Htr suffix.
  - subst suffix. cbn [fmap list_fmap concat app].
    rewrite !(right_id_L [] (++)).
    destruct trailing as [|x [|y trailing]]; cbn in Htr; [done| |lia].
    cbn [length seq foldl]. apply ResArr_step_skip. right.
    rewrite length_app. cbn. lia.
  - subst suffix. cbn [fmap list_fmap concat app length seq foldl fst snd].
    set (rest := concat _ ++ trailing).
    rewrite (ResArr_step_pair _ va sa (length pre) v s).
    + rewrite ResArr_step_skip.
      * specialize (IH (pre ++ [RBulk v; RBulk s]) trailing (S n) (va ++ [v]) (sa ++ [s])).
        rewrite length_app in IH. cbn [length] in IH.
        rewrite <- !(assoc_L (++)) in IH. cbn [app] in IH.
        replace (length pre + 2)%nat with (S (S (length pre))) in IH by lia.
        subst rest. rewrite IH by lia. done.
      * left. apply Nat.eqb_neq. rewrite Hpre.
        replace (S (2 * n)) with (1 + n * 2)%nat by lia.
        by rewrite Nat.Div0.mod_add.
    + apply Nat.eqb_eq. rewrite Hpre, Nat.mul_comm. apply Nat.Div0.mod_mul.
    + rewrite lookup_app_r by lia.
      by replace (length pre - length pre)%nat with 0%nat by lia.
    + rewrite lookup_app_r by lia.
      by replace (length pre + 1 - length pre)%nat with 1%nat by lia.
Qed.

(** X7. The older [ZrevrangeResArr] visits every index and acts on the
    even ones that have a successor. For a reply made of member and
    score pairs, followed by at most one more element, it returns the
    members and the scores as two lists of the same length, in the
    order of the reply; a trailing element without a score is dropped,
    whatever it is. *)
Theorem Legacy_ZrevrangeResArr_splits_pairs m key start end_
    (ps : list (string * string)) trailing s' w :
  (length trailing <= 1)%nat ->
  exec (srv w) (next_conn w)
    (Cmd "ZREVRANGE" [AStr (Prefix m +:+ key); AInt start; AInt end_; AStr "withscores"]) =
  (s', inl (RArr (concat ((λ p, [RBulk p.1; RBulk p.2]) <$> ps) ++ trailing))) ->
  fst (Legacy.ZrevrangeResArr exec release m key start end_ w) =
  Returned (fst <$> ps, snd <$> ps, None).
Proof.
  intros Htr Hexec. run_lists. rewrite Hexec.
  pose proof (ResArr_fold ps [] trailing 0 [] [] eq_refl Htr) as H.
  cbn [app length] in H. rewrite H. done.
Qed.
End MoreClientFacts.

(** ** Writing, reading and deleting keys on the store *)
Section StoreFacts.
Import Redis.

Lemma exec_SET d c k v opts :
  exec d c (Cmd "SET" (AStr k :: v :: opts)) =
  match set_opts (arg_bytes <$> opts) false None with
  | None => (d, inr (ErrServer "ERR syntax error"))
  | Some (nx, ex) =>
      if nx && bool_decide (is_Some (keys d !! k)) then (d, inl RNil)
      else (Db (<[k := Entry (arg_bytes v) ex]> (keys d)) (subs d) (delivered d),
            inl (RStatus "OK"))
  end.
Proof. reflexivity. Qed.

Lemma set_opts_EX ttl nx :
  0 < ttl <= MaxInt64 -> set_opts ["EX"; pretty ttl] nx None = Some (nx, Some ttl).
Proof.
  intros Httl. cbn [set_opts].
  change (bool_decide ("EX" = "NX")) with false.
  change (bool_decide ("EX" = "EX")) with true. cbv iota.
  rewrite ParseInt_pretty by (unfold MinInt64, MaxInt64 in *; lia).
  destruct (0 <? ttl) eqn:Hpos; [done|]. apply Z.ltb_ge in Hpos. lia.
Qed.

(** The arguments [Set], [SetString] and [SetJSON] put behind the value. *)
Lemma exec_SET_ttl d c k v ttl :
  MinInt64 <= ttl <= MaxInt64 ->
  exec d c (Cmd "SET" (AStr k :: v :: (if 0 <? ttl then [AStr "EX"; AInt ttl] else []))) =
  (Db (<[k := Entry (arg_bytes v) (if 0 <? ttl then Some ttl else None)]> (keys d))
      (subs d) (delivered d),
   inl (RStatus "OK")).
Proof.
  intros Httl. rewrite exec_SET. destruct (0 <? ttl) eqn:Hpos; [|done].
  apply Z.ltb_lt in Hpos. cbn [fmap list_fmap arg_bytes].
  rewrite set_opts_EX by lia. done.
Qed.

Lemma exec_SET_NX_ttl d c k v sec :
  MinInt64 <= sec <= MaxInt64 ->
  exec d c (Cmd "SET" ((if 0 <? sec then ([AStr k; v] ++ [AStr "NX"]) ++ [AStr "EX"; AInt sec]
                        else [AStr k; v] ++ [AStr "NX"]))) =
  match keys d !! k with
  | Some _ => (d, inl RNil)
  | None =>
      (Db (<[k := Entry (arg_bytes v) (if 0 <? sec then Some sec else None)]> (keys d))
          (subs d) (delivered d),
       inl (RStatus "OK"))
  end.
Proof.
  intros Hsec. destruct (0 <? sec) eqn:Hpos; cbn [app]; rewrite exec_SET;
    cbn [fmap list_fmap arg_bytes set_opts];
    change (bool_decide ("NX" = "NX")) with true; cbv iota.
  - apply Z.ltb_lt in Hpos. fold (set_opts ["EX"; pretty sec] true None).
    rewrite set_opts_EX by lia. cbn [andb].
    destruct (keys d !! k) as [e|] eqn:Hk.
    + by rewrite bool_decide_eq_true_2.
    + rewrite bool_decide_eq_false_2; [done|]. by intros [? ?].
  - cbn [andb]. destruct (keys d !! k) as [e|] eqn:Hk.
    + by rewrite bool_decide_eq_true_2.
    + rewrite bool_decide_eq_false_2; [done|]. by intros [? ?].
Qed.

Lemma exec_SETEX d c k v s :
  0 < s <= MaxInt64 ->
  exec d c (Cmd "SETEX" [AStr k; AInt s; v]) =
  (Db (<[k := Entry (arg_bytes v) (Some s)]> (keys d)) (subs d) (delivered d),
   inl (RStatus "OK")).
Proof.
  intros Hs. unfold exec. cbn [cmd_name cmd_args fmap list_fmap arg_bytes].
  change (bool_decide ("SETEX" = "PING")) with false.
  change (bool_decide ("SETEX" = "EXISTS")) with false.
  change (bool_decide ("SETEX" = "GET")) with false.
  change (bool_decide ("SETEX" = "DEL")) with false.
  change (bool_decide ("SETEX" = "SET")) with false.
  change (bool_decide ("SETEX" = "SETEX")) with true. cbv iota.
  rewrite ParseInt_pretty by (unfold MinInt64, MaxInt64 in *; lia).
  destruct (0 <? s) eqn:Hpos; [done|]. apply Z.ltb_ge in Hpos. lia.
Qed.

Lemma exec_DEL_one d c k :
  exec d c (Cmd "DEL" [AStr k]) =
  (Db (delete k (keys d)) (subs d) (delivered d),
   inl (RInt (match keys d !! k with Some _ => 1 | None => 0 end))).
Proof.
  change (exec d c (Cmd "DEL" [AStr k])) with
    (Db (delete k (keys d)) (subs d) (delivered d),
     @inl reply error (RInt (Z.of_nat (size (keys d)) - Z.of_nat (size (delete k (keys d)))))).
  rewrite map_size_delete. f_equal. f_equal. f_equal.
  destruct (keys d !! k) as [e|] eqn:Hk; cbn; [|lia].
  assert (size (keys d) ≠ 0%nat); [|lia].
  intros Hsize. apply map_size_empty_inv in Hsize. by rewrite Hsize in Hk.
Qed.

Lemma Set_redis m key data ttl w :
  MinInt64 <= ttl <= MaxInt64 ->
  Set_ exec release m key data ttl w =
  (None,
   World (release
            (Db (<[Prefix m +:+ key :=
                     Entry (arg_bytes data) (if 0 <? ttl then Some ttl else None)]>
                   (keys (srv w)))
                (subs (srv w)) (delivered (srv w)))
            (next_conn w))
         (sent w ++ [Cmd "SET" (AStr (Prefix m +:+ key) :: data ::
                                  (if 0 <? ttl then [AStr "EX"; AInt ttl] else []))])
         (S (next_conn w))).
Proof.
  intros Httl. run. unfold prefixKey.
  pose proof (exec_SET_ttl (srv w) (next_conn w) (Prefix m +:+ key) data ttl Httl) as H.
  destruct (0 <? ttl); cbn [srv sent next_conn]; rewrite H; reflexivity.
Qed.

(** X8. Read your write. For a ttl in the range of Go's int, [Set]
    succeeds on the store and the key then holds the bytes redigo
    writes for the value, with the ttl when it is positive and without
    expiry otherwise; [Get] and [GetString] return these bytes and
    [Exists] returns true. The same for [SetString] and [GetString]. *)
Theorem Set_then_Get_reads_the_value m key (data : arg) (str : string) ttl w :
  MinInt64 <= ttl <= MaxInt64 ->
  let pk := Prefix m +:+ key in
  let w' := snd (Set_ exec release m key data ttl w) in
  let ws := snd (SetString exec release m key str ttl w) in
  fst (Set_ exec release m key data ttl w) = None ∧
  keys (srv w') !! pk =
    Some (Entry (arg_bytes data) (if 0 <? ttl then Some ttl else None)) ∧
  fst (Get exec release m key w') = (Some (arg_bytes data), None) ∧
  fst (GetString exec release m key w') = (arg_bytes data, None) ∧
  fst (Exists exec release m key w') = (true, None) ∧
  fst (SetString exec release m key str ttl w) = None ∧
  fst (GetString exec release m key ws) = (str, None).
Proof.
  intros Httl pk w' ws.
  assert (Hs : ∀ data, keys (srv (snd (Set_ exec release m key data ttl w))) !! pk =
            Some (Entry (arg_bytes data) (if 0 <? ttl then Some ttl else None))).
  { intros d. rewrite Set_redis by done. cbn. apply lookup_insert_eq. }
  split; [by rewrite Set_redis|].
  split; [apply Hs|].
  split; [rewrite Get_redis; fold pk; unfold w'; by rewrite Hs|].
  split; [rewrite GetString_redis; fold pk; unfold w'; by rewrite Hs|].
  split; [rewrite Exists_redis; fold pk; unfold w'; rewrite Hs;
          by rewrite bool_decide_eq_true_2|].
  split; [exact (f_equal fst (Set_redis m key (AStr str) ttl w Httl))|].
  rewrite GetString_redis. fold pk. unfold ws.
  change (SetString exec release m key str ttl w) with
    (Set_ exec release m key (AStr str) ttl w).
  by rewrite Hs.
Qed.

Lemma Del_redis m key w :
  Del exec release m key w =
  ((bool_decide (is_Some (keys (srv w) !! (Prefix m +:+ key))), None),
   World (release (Db (delete (Prefix m +:+ key) (keys (srv w)))
                      (subs (srv w)) (delivered (srv w)))
                  (next_conn w))
         (sent w ++ [Cmd "DEL" [AStr (Prefix m +:+ key)]])
         (S (next_conn w))).
Proof.
  run. unfold prefixKey. rewrite exec_DEL_one. cbn.
  destruct (keys (srv w) !! (Prefix m +:+ key)); reflexivity.
Qed.

(** X9. [Del] returns true exactly when the key was in the store, and
    never an error. Afterwards the store is the one before without the
    prefixed key: [Exists] returns false, [Get] returns ErrNil and a
    second [Del] returns false. *)
Theorem Del_reports_whether_the_key_was_there m key w :
  let pk := Prefix m +:+ key in
  let w' := snd (Del exec release m key w) in
  fst (Del exec release m key w) = (bool_decide (is_Some (keys (srv w) !! pk)), None) ∧
  keys (srv w') = delete pk (keys (srv w)) ∧
  fst (Exists exec release m key w') = (false, None) ∧
  fst (Get exec release m key w') = (None, Some ErrNil) ∧
  fst (Del exec release m key w') = (false, None).
Proof.
  intros pk w'.
  assert (Hk : keys (srv w') = delete pk (keys (srv w))).
  { unfold w'. by rewrite Del_redis. }
  assert (Hl : keys (srv w') !! pk = None).
  { rewrite Hk. apply lookup_delete_eq. }
  split; [by rewrite Del_redis|].
  split; [done|].
  split; [rewrite Exists_redis; fold pk; rewrite Hl; done|].
  split; [rewrite Get_redis; fold pk; by rewrite Hl|].
  rewrite Del_redis. fold pk. by rewrite Hl.
Qed.

Lemma SetNX_redis m key value sec w :
  MinInt64 <= sec <= MaxInt64 ->
  let pk := Prefix m +:+ key in
  let cmd := Cmd "SET" (if 0 <? sec
                        then [AStr pk; value; AStr "NX"; AStr "EX"; AInt sec]
                        else [AStr pk; value; AStr "NX"]) in
  SetNX exec release m key value sec w =
  match keys (srv w) !! pk with
  | Some _ =>
      ((false, None),
       World (release (srv w) (next_conn w)) (sent w ++ [cmd]) (S (next_conn w)))
  | None =>
      ((true, None),
       World (release
                (Db (<[pk := Entry (arg_bytes value) (if 0 <? sec then Some sec else None)]>
                       (keys (srv w)))
                    (subs (srv w)) (delivered (srv w)))
                (next_conn w))
             (sent w ++ [cmd]) (S (next_conn w)))
  end.
Proof.
  intros Hsec pk cmd. run. unfold prefixKey. fold pk.
  pose proof (exec_SET_NX_ttl (srv w) (next_conn w) pk value sec Hsec) as H.
  subst cmd. destruct (0 <? sec); cbn [srv sent next_conn app] in *; rewrite H;
    destruct (keys (srv w) !! pk); reflexivity.
Qed.

(** X10. [SetNX] on a free key writes it and returns true; a second
    [SetNX] on the key returns false without an error and leaves the
    store as the first one made it, so [Get] returns the first
    value. *)
Theorem SetNX_first_writer_wins m key (v1 v2 : arg) sec1 sec2 w :
  MinInt64 <= sec1 <= MaxInt64 ->
  MinInt64 <= sec2 <= MaxInt64 ->
  keys (srv w) !! (Prefix m +:+ key) = None ->
  let w1 := snd (SetNX exec release m key v1 sec1 w) in
  let w2 := snd (SetNX exec release m key v2 sec2 w1) in
  fst (SetNX exec release m key v1 sec1 w) = (true, None) ∧
  fst (SetNX exec release m key v2 sec2 w1) = (false, None) ∧
  keys (srv w2) = keys (srv w1) ∧
  fst (Get exec release m key w2) = (Some (arg_bytes v1), None).
Proof.
  intros H1 H2 Hfree w1 w2.
  assert (Hw1 : keys (srv w1) !! (Prefix m +:+ key) =
                Some (Entry (arg_bytes v1) (if 0 <? sec1 then Some sec1 else None))).
  { unfold w1. rewrite SetNX_redis by done. cbn zeta. rewrite Hfree. cbn.
    apply lookup_insert_eq. }
  assert (Hw2 : keys (srv w2) = keys (srv w1)).
  { unfold w2. rewrite SetNX_redis by done. cbn zeta. by rewrite Hw1. }
  split; [rewrite SetNX_redis by done; cbn zeta; by rewrite Hfree|].
  split; [rewrite SetNX_redis by done; cbn zeta; by rewrite Hw1|].
  split; [done|].
  rewrite Get_redis, Hw2, Hw1. done.
Qed.

End StoreFacts.

(** ** Batch deletion on the store *)
Section PurgeFacts.
Import Redis.

Lemma fmap_arg_bytes_AStr (l : list string) : arg_bytes <$> (AStr <$> l) = l.
Proof. induction l as [|x l IH]; cbn; [done|by rewrite IH]. Qed.

Lemma strings_fill_bulk (ks : list string) : strings_fill (RBulk <$> ks) = (ks, None).
Proof. induction ks as [|k ks IH]; cbn; [done|by rewrite IH]. Qed.

Lemma elem_of_matching d p k :
  k ∈ matching d p ↔ glob p k = true ∧ is_Some (keys d !! k).
Proof.
  unfold matching. rewrite list_elem_of_filter, list_elem_of_fmap.
  split.
  - intros [Hg ([k' e] & -> & Hin)]. apply elem_of_map_to_list in Hin. cbn. eauto.
  - intros [Hg [e He]]. split; [done|]. exists (k, e). split; [done|].
    by apply elem_of_map_to_list.
Qed.

(** The keys left when the keys matching a pattern are deleted. *)
Lemma lookup_purged d p k :
  foldr delete (keys d) (matching d p) !! k =
  if glob p k then None else keys d !! k.
Proof.
  destruct (glob p k) eqn:Hg.
  - destruct (keys d !! k) as [e|] eqn:Hk.
    + apply lookup_foldr_delete, elem_of_matching. eauto.
    + rewrite lookup_foldr_delete_not_elem_of; [done|].
      rewrite elem_of_matching. intros [_ [e He]]. congruence.
  - apply lookup_foldr_delete_not_elem_of. rewrite elem_of_matching.
    intros [Hg' _]. congruence.
Qed.

Lemma matching_nil d p :
  (∀ k, is_Some (keys d !! k) -> glob p k = false) -> matching d p = [].
Proof.
  intros Hnone. destruct (matching d p) as [|k l] eqn:Hm; [done|].
  assert (Hin : k ∈ matching d p) by (rewrite Hm; left).
  apply elem_of_matching in Hin as [Hg Hk]. rewrite (Hnone k Hk) in Hg. done.
Qed.

Lemma exec_SCAN d c full cursor :
  exec d c (scan_cmd full cursor) =
  (d, inl (RArr [RBulk "0"; RArr (RBulk <$> matching d full)])).
Proof. reflexivity. Qed.

Lemma exec_DEL_many d c k ks :
  exec d c (del_cmd (k :: ks)) =
  (Db (foldr delete (keys d) (k :: ks)) (subs d) (delivered d),
   inl (RInt (Z.of_nat (size (keys d)) -
              Z.of_nat (size (foldr delete (keys d) (k :: ks)))))).
Proof.
  unfold exec, del_cmd. cbn [cmd_name cmd_args].
  rewrite (fmap_arg_bytes_AStr (k :: ks)). reflexivity.
Qed.

Lemma BatchDel_redis fuel m pattern w :
  let full := "*" +:+ Prefix m +:+ pattern +:+ "*" in
  let ks := matching (srv w) full in
  BatchDel exec release (S fuel) m pattern w =
  (Returned None,
   World (release (Db (foldr delete (keys (srv w)) ks) (subs (srv w)) (delivered (srv w)))
                  (next_conn w))
         (sent w ++ scan_cmd full 0 :: match ks with [] => [] | _ => [del_cmd ks] end)
         (S (next_conn w))).
Proof.
  intros full ks. rewrite BatchDel_run, BatchDel_loop_step. fold full.
  cbn [srv sent next_conn]. rewrite exec_SCAN. fold ks.
  cbn [decode redis_Values redis_Strings redis_Int fst].
  rewrite strings_fill_bulk. cbn [fst].
  change (fst (ParseInt "0") =? 0) with true. cbv iota.
  destruct ks as [|k ks'] eqn:Hks.
  - cbn. by destruct (srv w).
  - rewrite exec_DEL_many. cbn [srv sent next_conn]. reflexivity.
Qed.

(** X11. On the store, whose SCAN answers with all matching keys and
    cursor 0, [BatchDel] returns without error after one round, and the
    keys left are exactly those that do not match "*" + prefix +
    pattern + "*". A second run on the result sends one SCAN, finds
    nothing and sends no DEL. *)
Theorem BatchDel_deletes_exactly_the_matching_keys fuel fuel' m pattern w :
  let full := "*" +:+ Prefix m +:+ pattern +:+ "*" in
  let w' := snd (BatchDel exec release (S fuel) m pattern w) in
  fst (BatchDel exec release (S fuel) m pattern w) = Returned None ∧
  (∀ k, keys (srv w') !! k = if glob full k then None else keys (srv w) !! k) ∧
  BatchDel exec release (S fuel') m pattern w' =
    (Returned None,
     World (release (srv w') (next_conn w')) (sent w' ++ [scan_cmd full 0])
           (S (next_conn w'))).
Proof.
  intros full w'.
  assert (Hk : ∀ k, keys (srv w') !! k = if glob full k then None else keys (srv w) !! k).
  { intros k. unfold w'. rewrite BatchDel_redis. cbn. apply lookup_purged. }
  split; [by rewrite BatchDel_redis|]. split; [done|].
  rewrite BatchDel_redis. fold full.
  rewrite (matching_nil (srv w') full).
  - cbn. by destruct (srv w').
  - intros k [e He]. rewrite Hk in He. by destruct (glob full k).
Qed.

Lemma Legacy_BatchDel_each_redis c ks : ∀ w,
  Legacy.BatchDel_each exec c ks w =
  (None,
   World (Db (foldl (λ mp k, delete k mp) (keys (srv w)) ks)
             (subs (srv w)) (delivered (srv w)))
         (sent w ++ ((λ k, Cmd "DEL" [AStr k]) <$> ks))
         (next_conn w)).
Proof.
  induction ks as [|k ks IH]; intros w.
  - cbn. rewrite (right_id_L [] (++)). by destruct w as [[] ? ?].
  - cbn [Legacy.BatchDel_each]. run. rewrite exec_DEL_one.
    cbn [decode redis_Bool]. rewrite IH. cbn [srv sent next_conn keys subs delivered foldl fmap list_fmap].
    by rewrite <- (assoc_L (++)).
Qed.

Lemma lookup_foldl_delete (mp : gmap string entry) ks k :
  foldl (λ mp k, delete k mp) mp ks !! k = foldr delete mp ks !! k.
Proof.
  revert mp. induction ks as [|k' ks IH]; intros mp; [done|].
  cbn [foldl foldr]. rewrite IH, <- delete_foldr_delete. done.
Qed.

(** X12. The older [BatchDel] (KEYS, then one DEL per key) and the
    current one (SCAN, then one DEL for the batch) leave the same keys
    in the store and both succeed; the older one sends one command per
    matching key after the KEYS, the current one at most two
    commands. *)
Theorem Legacy_BatchDel_deletes_the_same_keys fuel m pattern w :
  let full := "*" +:+ Prefix m +:+ pattern +:+ "*" in
  let ks := matching (srv w) full in
  fst (Legacy.BatchDel exec release m pattern w) = None ∧
  fst (BatchDel exec release (S fuel) m pattern w) = Returned None ∧
  keys (srv (snd (Legacy.BatchDel exec release m pattern w))) =
    keys (srv (snd (BatchDel exec release (S fuel) m pattern w))) ∧
  sent (snd (Legacy.BatchDel exec release m pattern w)) =
    sent w ++ Cmd "KEYS" [AStr full] :: ((λ k, Cmd "DEL" [AStr k]) <$> ks) ∧
  sent (snd (BatchDel exec release (S fuel) m pattern w)) =
    sent w ++ scan_cmd full 0 :: match ks with [] => [] | _ => [del_cmd ks] end.
Proof.
  intros full ks.
  assert (HL : Legacy.BatchDel exec release m pattern w =
    (None,
     World (release (Db (foldl (λ mp k, delete k mp) (keys (srv w)) ks)
                        (subs (srv w)) (delivered (srv w))) (next_conn w))
           (sent w ++ Cmd "KEYS" [AStr full] :: ((λ k, Cmd "DEL" [AStr k]) <$> ks))
           (S (next_conn w)))).
  { run. fold full.
    change (exec (srv w) (next_conn w) (Cmd "KEYS" [AStr full])) with
      (srv w, @inl reply error (RArr (RBulk <$> matching (srv w) full))).
    fold ks. cbn [decode redis_Strings]. rewrite strings_fill_bulk.
    rewrite Legacy_BatchDel_each_redis. cbn [srv sent next_conn].
    by rewrite <- (assoc_L (++)). }
  rewrite HL, BatchDel_redis. fold full ks. cbn [fst snd srv sent keys release].
  repeat split. apply map_eq. intros k. apply lookup_foldl_delete.
Qed.
End PurgeFacts.

(** ** Keys, JSON values, raw commands and subscriptions on the store *)
Section MoreStoreFacts.
Import Redis.

(** Go's string concatenation can be cancelled on the left. *)
Lemma append_inj_l p s1 s2 : p +:+ s1 = p +:+ s2 -> s1 = s2.
Proof.
  induction p as [|a p IH]; simpl; intros Heq; [done|].
  injection Heq as Heq. by apply IH.
Qed.

(** X13. Two different keys of one manager. The store keys differ,
    since the prefix is put in front of both, and what [Get] and
    [Exists] return for one key is the same before and after [Set],
    [SetString], [SetNX] or [Del] on the other. *)
Theorem keys_of_one_manager_do_not_interfere
    m k1 k2 (value : arg) (str : string) ttl w :
  k1 ≠ k2 ->
  let seen w := (fst (Get exec release m k2 w), fst (Exists exec release m k2 w)) in
  prefixKey m k1 ≠ prefixKey m k2 ∧
  seen (snd (Set_ exec release m k1 value ttl w)) = seen w ∧
  seen (snd (SetString exec release m k1 str ttl w)) = seen w ∧
  seen (snd (SetNX exec release m k1 value ttl w)) = seen w ∧
  seen (snd (Del exec release m k1 w)) = seen w.
Proof.
  intros Hkeys seen.
  assert (Hne : Prefix m +:+ k2 ≠ Prefix m +:+ k1).
  { intros Heq. apply Hkeys. symmetry. by apply append_inj_l in Heq. }
  assert (Hseen : ∀ w1, keys (srv w1) !! (Prefix m +:+ k2) =
                        keys (srv w) !! (Prefix m +:+ k2) -> seen w1 = seen w).
  { intros w1 Heq. unfold seen. by destruct (seen_by_lookup m k2 w1 w Heq) as [-> ->]. }
  split; [unfold prefixKey; congruence|].
  split; [apply Hseen, Set_other, Hne|].
  split; [apply Hseen, SetString_other, Hne|].
  split; [apply Hseen, SetNX_other, Hne|].
  apply Hseen, Del_other, Hne.
Qed.

(** X14. [SetJSONWithContext] and [SetJSON] write the same entry. For
    an expiration in the range of Go's int and a context that is not
    done, both return the same error and leave the same store, although
    for a positive expiration [SetJSON] sends SET key data EX seconds
    and [SetJSONWithContext] sends SETEX key seconds data. *)
Theorem SetJSONWithContext_stores_what_SetJSON_stores {T : Type}
    (Marshal : T -> string + error) m key (x : T) expiration w :
  MinInt64 <= expiration <= MaxInt64 ->
  let ctx := {| ctx_Err := None |} in
  let pk := Prefix m +:+ key in
  let plain := SetJSON exec release Marshal m key x expiration w in
  let with_ctx := SetJSONWithContext exec release Marshal ctx m key x expiration w in
  fst with_ctx = fst plain ∧
  srv (snd with_ctx) = srv (snd plain) ∧
  (∀ jsonData, Marshal x = inl jsonData -> 0 < expiration ->
     sent (snd plain) =
       sent w ++ [Cmd "SET" [AStr pk; ABytes jsonData; AStr "EX"; AInt expiration]] ∧
     sent (snd with_ctx) =
       sent w ++ [Cmd "SETEX" [AStr pk; AInt expiration; ABytes jsonData]] ∧
     keys (srv (snd plain)) !! pk = Some (Entry jsonData (Some expiration))).
Proof.
  intros Hexp ctx pk plain with_ctx. subst plain with_ctx ctx. run.
  cbn [ctx_Err]. unfold prefixKey. fold pk.
  destruct (Marshal x) as [jsonData|e]; [|split; [done|split; [done|intros; done]]].
  destruct (0 <? expiration) eqn:Hpos; cbn [srv sent next_conn].
  - apply Z.ltb_lt in Hpos.
    rewrite exec_SETEX by lia.
    pose proof (exec_SET_ttl (srv w) (next_conn w) pk (ABytes jsonData) expiration Hexp) as H.
    rewrite (proj2 (Z.ltb_lt 0 expiration) Hpos) in H. rewrite H.
    cbn. split; [done|]. split; [done|].
    intros j [= <-] _. split; [done|]. split; [done|]. apply lookup_insert_eq.
  - apply Z.ltb_ge in Hpos. destruct (exec _ _ _) as [s' r]. cbn.
    split; [done|]. split; [done|]. intros; lia.
Qed.

Lemma GetJSON_redis {T : Type} (Unmarshal : string -> T + error) m key w :
  GetJSON exec release Unmarshal m key w =
  (match keys (srv w) !! (Prefix m +:+ key) with
   | None => (None, Some ErrNil)
   | Some e =>
       match Unmarshal (e_val e) with
       | inl v => (Some v, None)
       | inr err => (None, Some err)
       end
   end,
   World (release (srv w) (next_conn w))
         (sent w ++ [Cmd "GET" [AStr (Prefix m +:+ key)]]) (S (next_conn w))).
Proof.
  run. rewrite exec_GET.
  destruct (keys (srv w) !! (Prefix m +:+ key)) as [e|]; cbn; [|done].
  by destruct (Unmarshal (e_val e)).
Qed.

(** X15. [GetJSON] sends one GET for the prefixed key, without the
    EXISTS that [Get] sends first, and changes nothing in the store.
    For a key that is not there it returns ErrNil and stores nothing
    through the pointer; for a key whose bytes [json.Unmarshal] refuses
    it returns that error; otherwise it stores the decoded value. *)
Theorem GetJSON_of_absent_or_undecodable_key {T : Type}
    (Unmarshal : string -> T + error) m key w :
  let pk := Prefix m +:+ key in
  sent (snd (GetJSON exec release Unmarshal m key w)) = sent w ++ [Cmd "GET" [AStr pk]] ∧
  keys (srv (snd (GetJSON exec release Unmarshal m key w))) = keys (srv w) ∧
  (keys (srv w) !! pk = None ->
   fst (GetJSON exec release Unmarshal m key w) = (None, Some ErrNil)) ∧
  (∀ e err, keys (srv w) !! pk = Some e -> Unmarshal (e_val e) = inr err ->
   fst (GetJSON exec release Unmarshal m key w) = (None, Some err)) ∧
  (∀ e v, keys (srv w) !! pk = Some e -> Unmarshal (e_val e) = inl v ->
   fst (GetJSON exec release Unmarshal m key w) = (Some v, None)).
Proof.
  intros pk. rewrite GetJSON_redis. fold pk. cbn [fst snd sent srv release keys].
  split; [done|]. split; [done|].
  split; [by intros ->|].
  split; [by intros e err -> ->|by intros e v -> ->].
Qed.

Lemma append_ne_r p s : p ≠ "" -> p +:+ s ≠ s.
Proof.
  intros Hp Heq. apply (f_equal String.length) in Heq.
  rewrite append_length in Heq. destruct p; [done|]. simpl in Heq. lia.
Qed.

(** X16. [Do] sends the command as it is given: names in the arguments
    are not prefixed. After [Set] on a key, a GET through [Do] finds the
    value under the prefixed key only; under the key as the caller
    wrote it, it finds what was there before the [Set]. *)
Theorem Do_sends_the_key_as_given m key (data : arg) ttl name args w :
  MinInt64 <= ttl <= MaxInt64 ->
  Prefix m ≠ "" ->
  let w' := snd (Set_ exec release m key data ttl w) in
  sent (snd (Do exec release m name args w)) = sent w ++ [Cmd name args] ∧
  fst (Do exec release m "GET" [AStr (prefixKey m key)] w') =
    inl (RBulk (arg_bytes data)) ∧
  fst (Do exec release m "GET" [AStr key] w') =
    fst (Do exec release m "GET" [AStr key] w).
Proof.
  intros Httl Hp w'.
  split; [run; by destruct (exec _ _ _)|].
  assert (Hk : keys (srv w') =
    <[Prefix m +:+ key := Entry (arg_bytes data) (if 0 <? ttl then Some ttl else None)]>
      (keys (srv w))).
  { unfold w'. by rewrite Set_redis. }
  split.
  - run. unfold prefixKey. rewrite exec_GET. cbn. fold w'.
    by rewrite Hk, lookup_insert_eq.
  - run. rewrite !exec_GET. cbn. fold w'.
    rewrite Hk, lookup_insert_ne; [done|]. by apply append_ne_r.
Qed.

(** X17. The older [Get] sends GET alone, the current one EXISTS and
    then GET. On the store both return the same: the bytes of a key
    that is there, and a nil slice with ErrNil for a key that is
    not. *)
Theorem Legacy_Get_returns_what_Get_returns m key w :
  fst (Legacy.Get exec release m key w) = fst (Get exec release m key w) ∧
  srv (snd (Legacy.Get exec release m key w)) = srv (snd (Get exec release m key w)) ∧
  sent (snd (Legacy.Get exec release m key w)) =
    sent w ++ [Cmd "GET" [AStr (Prefix m +:+ key)]].
Proof.
  rewrite Get_redis. run_lists. rewrite exec_GET. cbn.
  by destruct (keys (srv w) !! (Prefix m +:+ key)).
Qed.

Lemma exec_SUBSCRIBE d c (names : list string) :
  names ≠ [] ->
  exec d c (Cmd "SUBSCRIBE" (AStr <$> names)) = (subscribe Channel c names d, inl RNil).
Proof.
  intros Hne. unfold exec. cbn [cmd_name cmd_args]. rewrite fmap_arg_bytes_AStr.
  destruct names as [|n names]; [done|]. reflexivity.
Qed.

(** X18. [Subscribe] of redis.go defers Close on the connection it
    wraps in the [PubSubConn] it returns: when it returns, the
    connection is back in the pool and the server has dropped its
    subscriptions, so nothing published later reaches it.
    [SubscribeWithContext] closes the connection only on failure: the
    connection it returns is subscribed to every prefixed name. *)
Theorem Subscribe_returns_a_connection_it_has_closed m (names : list string) w :
  names ≠ [] ->
  let ctx := {| ctx_Err := None |} in
  let c := next_conn w in
  let after := snd (Subscribe exec release m (AStr <$> names) w) in
  let after_ctx := snd (SubscribeWithContext exec release ctx m (AStr <$> names) w) in
  fst (Subscribe exec release m (AStr <$> names) w) = Returned (Some c, None) ∧
  (∀ channel, c ∉ receivers (srv after) channel) ∧
  fst (SubscribeWithContext exec release ctx m (AStr <$> names) w) =
    Returned (Some c, None) ∧
  (∀ n, n ∈ names -> c ∈ receivers (srv after_ctx) (Prefix m +:+ n)).
Proof.
  intros Hne ctx c after after_ctx.
  assert (Hpre : (λ n, Prefix m +:+ n) <$> names ≠ []) by (by destruct names).
  assert (HS : Subscribe exec release m (AStr <$> names) w =
    (Returned (Some c, None),
     World (release (subscribe Channel c ((λ n, Prefix m +:+ n) <$> names) (srv w)) c)
           (sent w ++ [Cmd "SUBSCRIBE" (AStr <$> ((λ n, Prefix m +:+ n) <$> names))])
           (S c))).
  { run. rewrite prefix_all_strings. run. by rewrite exec_SUBSCRIBE. }
  assert (HC : SubscribeWithContext exec release ctx m (AStr <$> names) w =
    (Returned (Some c, None),
     World (subscribe Channel c ((λ n, Prefix m +:+ n) <$> names) (srv w))
           (sent w ++ [Cmd "SUBSCRIBE" (AStr <$> ((λ n, Prefix m +:+ n) <$> names))])
           (S c))).
  { unfold ctx. run. cbn [ctx_Err]. rewrite prefix_all_strings. run.
    by rewrite exec_SUBSCRIBE. }
  subst after after_ctx. rewrite HS, HC. cbn [fst snd srv].
  split; [done|]. split; [|split; [done|]].
  - intros channel Hin. unfold receivers, release in Hin. cbn [subs] in Hin.
    apply list_elem_of_fmap in Hin as ([[c' k] n] & Hc & Hin). cbn in Hc. subst c'.
    apply list_elem_of_filter in Hin as [_ Hin].
    apply list_elem_of_filter in Hin as [Hin _]. by apply Hin.
  - intros n Hn. unfold receivers, subscribe. cbn [subs].
    apply list_elem_of_fmap. exists (c, Channel, Prefix m +:+ n). split; [done|].
    apply list_elem_of_filter. split.
    + unfold hears. cbn. by apply bool_decide_eq_true_2.
    + apply elem_of_app. right. apply list_elem_of_fmap.
      exists (Prefix m +:+ n). split; [done|]. by apply list_elem_of_fmap_2.
Qed.
End MoreStoreFacts.

(** ** The list methods against the model of lists *)
Section ListFacts.
Import RedisList.
Context {T : Type}.
Variable Marshal : T -> string + error.
Variable Unmarshal : string -> T + error.

Lemma fmap_arg_bytes_ABytes (l : list string) : Redis.arg_bytes <$> (ABytes <$> l) = l.
Proof. induction l as [|x l IH]; cbn; [done|by rewrite IH]. Qed.

Lemma list_exec_LPUSH d c k (vs : list arg) v :
  exec d c (Cmd "LPUSH" (AStr k :: v :: vs)) =
  (<[k := reverse (Redis.arg_bytes <$> (v :: vs)) ++ default [] (d !! k)]> d,
   inl (RInt (Z.of_nat (length (reverse (Redis.arg_bytes <$> (v :: vs)) ++
                                default [] (d !! k)))))).
Proof. reflexivity. Qed.

Lemma list_exec_RPUSH d c k (vs : list arg) v :
  exec d c (Cmd "RPUSH" (AStr k :: v :: vs)) =
  (<[k := default [] (d !! k) ++ (Redis.arg_bytes <$> (v :: vs))]> d,
   inl (RInt (Z.of_nat (length (default [] (d !! k) ++
                                (Redis.arg_bytes <$> (v :: vs))))))).
Proof. reflexivity. Qed.

Lemma list_exec_LPOP d c k :
  exec d c (Cmd "LPOP" [AStr k]) =
  match default [] (d !! k) with
  | [] => (d, inl RNil)
  | x :: rest => (store k rest d, inl (RBulk x))
  end.
Proof. reflexivity. Qed.

Lemma list_exec_RPOP d c k :
  exec d c (Cmd "RPOP" [AStr k]) =
  match reverse (default [] (d !! k)) with
  | [] => (d, inl RNil)
  | x :: rest => (store k (reverse rest) d, inl (RBulk x))
  end.
Proof. reflexivity. Qed.

Lemma lookup_store k l (d : gmap string (list string)) :
  store k l d !! k = match l with [] => None | _ => Some l end.
Proof.
  destruct l; cbn; [apply lookup_delete_eq|apply lookup_insert_eq].
Qed.

Lemma push_json_list name m key values js w :
  Forall2 (λ v j, Marshal v = inl j) values js ->
  push_json exec release Marshal name m key values w =
  (err_of (snd (exec (srv w) (next_conn w)
                  (Cmd name (AStr (Prefix m +:+ key) :: (ABytes <$> js))))),
   World (fst (exec (srv w) (next_conn w)
                 (Cmd name (AStr (Prefix m +:+ key) :: (ABytes <$> js)))))
         (sent w ++ [Cmd name (AStr (Prefix m +:+ key) :: (ABytes <$> js))])
         (S (next_conn w))).
Proof.
  intros Hall. run_lists. rewrite (marshal_each_ok Marshal values _ js Hall).
  unfold prefixKey. cbn [app srv sent next_conn].
  by destruct (exec _ _ _) as [s' r].
Qed.

Lemma RPushJSON_list m key v values j js w :
  Forall2 (λ v j, Marshal v = inl j) (v :: values) (j :: js) ->
  RPushJSON exec release Marshal m key (v :: values) w =
  (None,
   World (<[Prefix m +:+ key := default [] (srv w !! (Prefix m +:+ key)) ++ j :: js]> (srv w))
         (sent w ++ [Cmd "RPUSH" (AStr (Prefix m +:+ key) :: (ABytes <$> j :: js))])
         (S (next_conn w))).
Proof.
  intros Hall. unfold RPushJSON. rewrite (push_json_list _ m key _ _ w Hall).
  cbn [fmap list_fmap]. rewrite list_exec_RPUSH.
  cbn [fmap list_fmap Redis.arg_bytes]. by rewrite fmap_arg_bytes_ABytes.
Qed.

Lemma LPushJSON_list m key v values j js w :
  Forall2 (λ v j, Marshal v = inl j) (v :: values) (j :: js) ->
  LPushJSON exec release Marshal m key (v :: values) w =
  (None,
   World (<[Prefix m +:+ key := reverse (j :: js) ++ default [] (srv w !! (Prefix m +:+ key))]>
            (srv w))
         (sent w ++ [Cmd "LPUSH" (AStr (Prefix m +:+ key) :: (ABytes <$> j :: js))])
         (S (next_conn w))).
Proof.
  intros Hall. unfold LPushJSON. rewrite (push_json_list _ m key _ _ w Hall).
  cbn [fmap list_fmap]. rewrite list_exec_LPUSH.
  cbn [fmap list_fmap Redis.arg_bytes]. by rewrite fmap_arg_bytes_ABytes.
Qed.

Lemma LPopJSON_list m key j rest w :
  srv w !! (Prefix m +:+ key) = Some (j :: rest) ->
  LPopJSON exec release Unmarshal m key true w =
  (match Unmarshal j with
   | inl v => (Some v, None)
   | inr e => (None, Some (ErrFrom e))
   end,
   World (store (Prefix m +:+ key) rest (srv w))
         (sent w ++ [Cmd "LPOP" [AStr (Prefix m +:+ key)]]) (S (next_conn w))).
Proof.
  intros Hl. run_lists. unfold prefixKey. cbn [negb]. cbn [srv sent next_conn].
  rewrite list_exec_LPOP, Hl. cbn -[store]. by destruct (Unmarshal j).
Qed.

Lemma RPopJSON_list m key j init w :
  srv w !! (Prefix m +:+ key) = Some (init ++ [j]) ->
  RPopJSON exec release Unmarshal m key true w =
  (match Unmarshal j with
   | inl v => (Some v, None)
   | inr e => (None, Some (ErrFrom e))
   end,
   World (store (Prefix m +:+ key) init (srv w))
         (sent w ++ [Cmd "RPOP" [AStr (Prefix m +:+ key)]]) (S (next_conn w))).
Proof.
  intros Hl. run_lists. unfold prefixKey. cbn [negb]. cbn [srv sent next_conn].
  rewrite list_exec_RPOP, Hl. change (default [] (Some (init ++ [j]))) with (init ++ [j]).
  rewrite reverse_snoc. cbn -[store reverse]. rewrite reverse_involutive.
  by destruct (Unmarshal j).
Qed.

(** X19. When every value can be marshalled, [RPushJSON] puts the
    encodings behind what the list holds, in the order of the
    arguments, and [LPushJSON] puts them in front of it, in the reverse
    order: the value given last becomes the head. Both succeed, and
    they do what [RPush] and [LPush] do with the encodings. *)
Theorem pushed_values_land_in_order m key v values j js w :
  Forall2 (λ v j, Marshal v = inl j) (v :: values) (j :: js) ->
  let pk := Prefix m +:+ key in
  let old := default [] (srv w !! pk) in
  fst (RPushJSON exec release Marshal m key (v :: values) w) = None ∧
  srv (snd (RPushJSON exec release Marshal m key (v :: values) w)) =
    <[pk := old ++ j :: js]> (srv w) ∧
  fst (LPushJSON exec release Marshal m key (v :: values) w) = None ∧
  srv (snd (LPushJSON exec release Marshal m key (v :: values) w)) =
    <[pk := reverse (j :: js) ++ old]> (srv w) ∧
  RPush exec release m key (ABytes <$> j :: js) w =
    RPushJSON exec release Marshal m key (v :: values) w ∧
  LPush exec release m key (ABytes <$> j :: js) w =
    LPushJSON exec release Marshal m key (v :: values) w.
Proof.
  intros Hall pk old.
  rewrite (RPushJSON_list m key v values j js w Hall),
          (LPushJSON_list m key v values j js w Hall).
  split; [done|]. split; [done|]. split; [done|]. split; [done|].
  run_lists. unfold prefixKey. cbn [fmap list_fmap].
  rewrite list_exec_LPUSH, list_exec_RPUSH.
  cbn [fmap list_fmap Redis.arg_bytes]. by rewrite fmap_arg_bytes_ABytes.
Qed.

(** X20. [LPopJSON] on a list that is not empty. When the target is not
    a pointer it returns its own error and touches nothing: no
    connection is taken and the list keeps its head. When the target is
    a pointer the head leaves the list whether or not it can be
    unmarshalled: an element that [json.Unmarshal] refuses is lost, the
    error being all that comes back. [LPop] returns the raw head and
    leaves the same list. *)
Theorem LPopJSON_consumes_the_head_it_reads m key j rest w :
  srv w !! (Prefix m +:+ key) = Some (j :: rest) ->
  let pk := Prefix m +:+ key in
  let decoded := match Unmarshal j with
                 | inl v => (Some v, None)
                 | inr e => (None, Some (ErrFrom e))
                 end in
  LPopJSON exec release Unmarshal m key false w =
    ((None, Some (ErrText "value must be a pointer")), w) ∧
  fst (LPopJSON exec release Unmarshal m key true w) = decoded ∧
  srv (snd (LPopJSON exec release Unmarshal m key true w)) !! pk =
    match rest with [] => None | _ => Some rest end ∧
  fst (LPop exec release m key w) = (Some j, None) ∧
  srv (snd (LPop exec release m key w)) =
    srv (snd (LPopJSON exec release Unmarshal m key true w)).
Proof.
  intros Hl pk decoded. split; [done|].
  rewrite (LPopJSON_list m key j rest w Hl). cbn [fst snd srv].
  split; [done|]. split; [apply lookup_store|].
  run_lists. unfold prefixKey. rewrite list_exec_LPOP, Hl. done.
Qed.

(** X21. [RPopJSON] on a list that is not empty, in the same way: a
    target that is not a pointer leaves everything as it is; otherwise
    the last element leaves the list, decoded or lost with the error of
    [json.Unmarshal]. [RPop] returns the raw last element. *)
Theorem RPopJSON_consumes_the_last_element m key j init w :
  srv w !! (Prefix m +:+ key) = Some (init ++ [j]) ->
  let pk := Prefix m +:+ key in
  let decoded := match Unmarshal j with
                 | inl v => (Some v, None)
                 | inr e => (None, Some (ErrFrom e))
                 end in
  RPopJSON exec release Unmarshal m key false w =
    ((None, Some (ErrText "value must be a pointer")), w) ∧
  fst (RPopJSON exec release Unmarshal m key true w) = decoded ∧
  srv (snd (RPopJSON exec release Unmarshal m key true w)) !! pk =
    match init with [] => None | _ => Some init end ∧
  fst (RPop exec release m key w) = (Some j, None) ∧
  srv (snd (RPop exec release m key w)) =
    srv (snd (RPopJSON exec release Unmarshal m key true w)).
Proof.
  intros Hl pk decoded. split; [done|].
  rewrite (RPopJSON_list m key j init w Hl). cbn [fst snd srv].
  split; [done|]. split; [apply lookup_store|].
  run_lists. unfold prefixKey. rewrite list_exec_RPOP, Hl.
  change (default [] (Some (init ++ [j]))) with (init ++ [j]).
  rewrite reverse_snoc. cbn -[store reverse]. by rewrite reverse_involutive.
Qed.

(** X22. Values that survive the round trip through JSON, pushed on a
    key that holds no list: after [RPushJSON] the list is a queue from
    the left ([LPopJSON] gives the first value pushed, [RPopJSON] the
    last), after [LPushJSON] it is a stack ([LPopJSON] gives the last
    value pushed, [RPopJSON] the first). *)
Theorem JSON_lists_work_as_queue_and_stack m key values js first final w :
  Forall2 (λ v j, Marshal v = inl j ∧ Unmarshal j = inl v) values js ->
  head values = Some first ->
  last values = Some final ->
  srv w !! (Prefix m +:+ key) = None ->
  let pushed_right := snd (RPushJSON exec release Marshal m key values w) in
  let pushed_left := snd (LPushJSON exec release Marshal m key values w) in
  fst (LPopJSON exec release Unmarshal m key true pushed_right) = (Some first, None) ∧
  fst (RPopJSON exec release Unmarshal m key true pushed_right) = (Some final, None) ∧
  fst (LPopJSON exec release Unmarshal m key true pushed_left) = (Some final, None) ∧
  fst (RPopJSON exec release Unmarshal m key true pushed_left) = (Some first, None).
Proof.
  intros Hall Hhead Hlast Hfree pushed_right pushed_left.
  assert (HM : Forall2 (λ v j, Marshal v = inl j) values js).
  { eapply Forall2_impl; [exact Hall|]. by intros ?? [? ?]. }
  assert (Hfin : ∃ init jf, js = init ++ [jf] ∧ Unmarshal jf = inl final).
  { apply last_Some in Hlast as [vinit ->].
    apply Forall2_app_inv_l in Hall as (init & jl & _ & Hl & ->).
    apply Forall2_cons_inv_l in Hl as (jf & ? & [_ Hf] & Hnil & ->).
    apply Forall2_nil_inv_l in Hnil as ->. eauto. }
  destruct Hfin as (init & jf & Hsplit & Hf).
  destruct values as [|v values]; [done|].
  apply Forall2_cons_inv_l in Hall as (j & js' & [Hj HU] & Hall & ->).
  injection Hhead as ->.
  assert (HR : srv pushed_right = <[Prefix m +:+ key := j :: js']> (srv w)).
  { unfold pushed_right. rewrite (RPushJSON_list m key first values j js' w HM).
    by rewrite Hfree. }
  assert (HL : srv pushed_left = <[Prefix m +:+ key := reverse (j :: js')]> (srv w)).
  { unfold pushed_left. rewrite (LPushJSON_list m key first values j js' w HM).
    rewrite Hfree. cbn [snd srv]. f_equal. apply (right_id_L [] (++)). }
  rewrite (LPopJSON_list m key j js' pushed_right)
    by (by rewrite HR, lookup_insert_eq).
  rewrite (RPopJSON_list m key jf init pushed_right)
    by (by rewrite HR, lookup_insert_eq, Hsplit).
  rewrite (LPopJSON_list m key jf (reverse init) pushed_left)
    by (by rewrite HL, lookup_insert_eq, Hsplit, reverse_snoc).
  rewrite (RPopJSON_list m key j (reverse js') pushed_left)
    by (by rewrite HL, lookup_insert_eq, reverse_cons).
  cbn [fst]. by rewrite HU, Hf.
Qed.

(** X23. The empty cases. Popping from a key that holds no list gives
    redigo's ErrNil from all four pop methods and leaves the store as
    it is. A push without values still sends the command with the key
    alone, which the server refuses: [LPushJSON], [RPushJSON], [LPush]
    and [RPush] return its error. *)
Theorem empty_lists_and_empty_pushes m key w :
  let pk := Prefix m +:+ key in
  let wrong name :=
    Some (ErrServer ("ERR wrong number of arguments for '" +:+ name +:+ "' command")) in
  (srv w !! pk = None ->
   fst (LPopJSON exec release Unmarshal m key true w) = (None, Some (ErrFrom ErrNil)) ∧
   fst (RPopJSON exec release Unmarshal m key true w) = (None, Some (ErrFrom ErrNil)) ∧
   fst (LPop exec release m key w) = (None, Some ErrNil) ∧
   fst (RPop exec release m key w) = (None, Some ErrNil) ∧
   srv (snd (LPopJSON exec release Unmarshal m key true w)) = srv w ∧
   srv (snd (RPopJSON exec release Unmarshal m key true w)) = srv w) ∧
  fst (LPushJSON exec release Marshal m key [] w) = wrong "LPUSH" ∧
  fst (RPushJSON exec release Marshal m key [] w) = wrong "RPUSH" ∧
  fst (LPush exec release m key [] w) = wrong "LPUSH" ∧
  fst (RPush exec release m key [] w) = wrong "RPUSH" ∧
  sent (snd (LPushJSON exec release Marshal m key [] w)) =
    sent w ++ [Cmd "LPUSH" [AStr pk]] ∧
  srv (snd (LPushJSON exec release Marshal m key [] w)) = srv w ∧
  srv (snd (RPushJSON exec release Marshal m key [] w)) = srv w.
Proof.
  intros pk wrong. split; [|by run_lists].
  intros Hfree. run_lists. unfold prefixKey. subst pk. cbn [negb]. cbn [srv sent next_conn].
  rewrite list_exec_LPOP, list_exec_RPOP, Hfree. done.
Qed.
End ListFacts.


(** ** The options of [New] *)
Section NewFacts.
Context {server : Type}.
Variable exec : server -> conn -> command -> server * result.
Variable release : server -> conn -> server.

Lemma New_run opts w :
  Config.New exec release opts w =
  (({| Prefix := Config.prefix (Config.options opts) |},
    Config.connPool (Config.options opts),
    err_of (snd (exec (srv w) (next_conn w) (Cmd "PING" [])))),
   World (release (fst (exec (srv w) (next_conn w) (Cmd "PING" []))) (next_conn w))
         (sent w ++ [Cmd "PING" []]) (S (next_conn w))).
Proof. run_lists. by destruct (exec _ _ _) as [s1 r]. Qed.

Lemma options_snoc opts f : Config.options (opts ++ [f]) = f (Config.options opts).
Proof. unfold Config.options. by rewrite foldl_snoc. Qed.

Lemma options_keep_prefix before after :
  Forall (λ f : Config.Option, ∀ o, Config.prefix (f o) = Config.prefix o) after ->
  Config.prefix (Config.options (before ++ after)) =
  Config.prefix (Config.options before).
Proof.
  intros Hkeep. induction after as [|f after IH] using rev_ind.
  - by rewrite (right_id_L [] (++)).
  - apply Forall_app in Hkeep as [Hafter Hf]. apply Forall_cons in Hf as [Hf _].
    replace (before ++ after ++ [f]) with ((before ++ after) ++ [f])
      by (by rewrite <- (assoc_L (++))).
    rewrite options_snoc, Hf. by apply IH.
Qed.

(** X24. The prefix [New] gives the manager. It is the argument of the
    last [WithPrefix] among the options followed by a colon (so
    [WithPrefix ""] gives ":"), and it is empty, without a colon, when
    there is no [WithPrefix]: the other options do not touch it. [New]
    sends one PING with no arguments and returns the manager together
    with the error of that PING, whether or not there is one; the pool
    it builds always waits. *)
Theorem New_takes_the_prefix_of_the_last_WithPrefix before p after w :
  Forall (λ f : Config.Option, ∀ o, Config.prefix (f o) = Config.prefix o) after ->
  fst (fst (fst (Config.New exec release (before ++ Config.WithPrefix p :: after) w))) =
    WithPrefix p ∧
  fst (fst (fst (Config.New exec release after w))) = {| Prefix := "" |} ∧
  (∀ s n, Forall (λ f : Config.Option, ∀ o, Config.prefix (f o) = Config.prefix o)
            [Config.WithAddress s; Config.WithNetwork s; Config.WithPassword s;
             Config.WithMaxActive n; Config.WithDB n; Config.WithMaxIdle n;
             Config.WithIdleTimeout n]) ∧
  (∀ opts,
     sent (snd (Config.New exec release opts w)) = sent w ++ [Cmd "PING" []] ∧
     snd (fst (Config.New exec release opts w)) =
       err_of (snd (exec (srv w) (next_conn w) (Cmd "PING" []))) ∧
     Config.Wait (snd (fst (fst (Config.New exec release opts w)))) = true).
Proof.
  intros Hkeep. split; [|split; [|split]]; [| | |by intros opts; rewrite New_run].
  all: rewrite ?New_run; cbn [fst].
  - unfold WithPrefix. f_equal.
    replace (before ++ Config.WithPrefix p :: after)
      with ((before ++ [Config.WithPrefix p]) ++ after)
      by (by rewrite <- (assoc_L (++))).
    rewrite (options_keep_prefix _ after Hkeep), options_snoc. done.
  - f_equal. apply (options_keep_prefix [] after Hkeep).
  - intros s n. repeat (constructor; [done|]). constructor.
Qed.

End NewFacts.

(** ** Further runs on concrete inputs *)

(** X3 at work: the second channel is the number 5. *)
Lemma non_string_channel_witness :
  AInt 5 ∈ [AStr "news"; AInt 5] ∧
  Subscribe Scripted.exec Scripted.release (WithPrefix "app") [AStr "news"; AInt 5]
    (Scripted.start []) = (Panicked, World [] [] 1%nat) ∧
  SubscribeWithContext Scripted.exec Scripted.release {| ctx_Err := None |}
    (WithPrefix "app") [AStr "news"; AInt 5] (Scripted.start []) =
    (Panicked, World [] [] 1%nat).
Proof.
  assert (Hin : AInt 5 ∈ [AStr "news"; AInt 5]) by (right; left).
  split; [exact Hin|].
  destruct (subscribing_to_a_non_string_panics_before_sending
              Scripted.exec Scripted.release (WithPrefix "app")
              [AStr "news"; AInt 5] (AInt 5) (Scripted.start []) Hin
              ltac:(discriminate)) as (H1 & _ & H3 & _).
  split; [exact H1|exact H3].
Defined.

(** X4 at work: a channel value between two booleans. *)
Lemma PushJSON_failure_witness :
  let values := [ValJSON.VBool true] ++ ValJSON.VChan :: [ValJSON.VBool false] in
  LPushJSON RedisList.exec RedisList.release ValJSON.Marshal (WithPrefix "app")
    "jobs" values (RedisList.start ∅) =
  (Some (ErrJSON "json: unsupported type: chan int"), World ∅ [] 1%nat).
Proof.
  intros values.
  destruct (PushJSON_sends_nothing_when_a_value_fails
              RedisList.exec RedisList.release ValJSON.Marshal (WithPrefix "app") "jobs"
              [ValJSON.VBool true] ["true"] ValJSON.VChan [ValJSON.VBool false]
              (ErrJSON "json: unsupported type: chan int") (RedisList.start ∅))
    as [H _].
  - constructor; [reflexivity|constructor].
  - reflexivity.
  - exact H.
Defined.

(** X5 at work. *)
Lemma PushJSON_one_command_witness :
  sent (snd (RPushJSON Scripted.exec Scripted.release BoolJSON.Marshal (WithPrefix "app")
               "flags" [true; false] (Scripted.start [inl (RInt 2)]))) =
  [Cmd "RPUSH" [AStr "app:flags"; ABytes "true"; ABytes "false"]].
Proof.
  destruct (PushJSON_sends_one_command Scripted.exec Scripted.release BoolJSON.Marshal
              (WithPrefix "app") "flags" [true; false] ["true"; "false"]
              (Scripted.start [inl (RInt 2)])) as (_ & H & _).
  - constructor; [reflexivity|]. constructor; [reflexivity|constructor].
  - exact H.
Defined.

(** X6 at work, with integers for the scores. *)
Lemma scores_witness :
  let ParseFloat s := match ParseInt s with
                      | (v, None) => inl v
                      | (_, Some e) => inr e
                      end in
  fst (ZRangeWithScores Scripted.exec Scripted.release ParseFloat (WithPrefix "app")
         "board" 0 1
         (Scripted.start [inl (RArr [RBulk "ann"; RBulk "7"; RBulk "bob"; RBulk "9"])])) =
  Returned ([{| Score := 7; Member := "ann" |}; {| Score := 9; Member := "bob" |}], None).
Proof.
  intros ParseFloat.
  destruct (scores_are_paired_with_members Scripted.exec Scripted.release ParseFloat
              (WithPrefix "app") "board" 0 1 [("ann", "7", 7); ("bob", "9", 9)]
              (Scripted.start [inl (RArr [RBulk "ann"; RBulk "7"; RBulk "bob"; RBulk "9"])]))
    as (H & _).
  - constructor; [reflexivity|]. constructor; [reflexivity|constructor].
  - exact (H eq_refl).
Defined.

(** X7 at work: the reply ends with a member that has no score. *)
Lemma Legacy_ZrevrangeResArr_witness :
  fst (Legacy.ZrevrangeResArr Scripted.exec Scripted.release (WithPrefix "app")
         "board" 0 1
         (Scripted.start [inl (RArr [RBulk "bob"; RBulk "9"; RBulk "ann"; RBulk "7";
                                     RBulk "eve"])])) =
  Returned (["bob"; "ann"], ["9"; "7"], None).
Proof.
  apply (Legacy_ZrevrangeResArr_splits_pairs Scripted.exec Scripted.release
           (WithPrefix "app") "board" 0 1 [("bob", "9"); ("ann", "7")] [RBulk "eve"] []).
  - cbn. lia.
  - reflexivity.
Defined.

(** X8 at work. *)
Lemma Set_then_Get_witness :
  fst (Get Redis.exec Redis.release (WithPrefix "app") "k"
         (snd (Set_ Redis.exec Redis.release (WithPrefix "app") "k" (AInt 42) 60
                 (Redis.start Redis.empty)))) = (Some "42", None).
Proof.
  destruct (Set_then_Get_reads_the_value (WithPrefix "app") "k" (AInt 42) "s" 60
              (Redis.start Redis.empty)) as (_ & _ & H & _).
  - unfold MinInt64, MaxInt64. lia.
  - exact H.
Defined.

(** X10 at work. *)
Lemma SetNX_first_writer_witness :
  let m := WithPrefix "app" in
  let w1 := snd (SetNX Redis.exec Redis.release m "lock" (AStr "a") 30
                   (Redis.start Redis.empty)) in
  fst (SetNX Redis.exec Redis.release m "lock" (AStr "b") 0 w1) = (false, None) ∧
  fst (Get Redis.exec Redis.release m "lock"
         (snd (SetNX Redis.exec Redis.release m "lock" (AStr "b") 0 w1))) =
    (Some "a", None).
Proof.
  intros m w1.
  destruct (SetNX_first_writer_wins m "lock" (AStr "a") (AStr "b") 30 0
              (Redis.start Redis.empty)) as (_ & H2 & _ & H4).
  - unfold MinInt64, MaxInt64. lia.
  - unfold MinInt64, MaxInt64. lia.
  - reflexivity.
  - split; [exact H2|exact H4].
Defined.

(** X13 at work. *)
Lemma keys_of_one_manager_witness :
  let m := WithPrefix "app" in
  let w := snd (Set_ Redis.exec Redis.release m "b" (AStr "1") 0
                  (Redis.start Redis.empty)) in
  fst (Get Redis.exec Redis.release m "b" (snd (Del Redis.exec Redis.release m "a" w))) =
  fst (Get Redis.exec Redis.release m "b" w).
Proof.
  intros m w.
  destruct (keys_of_one_manager_do_not_interfere m "a" "b" (AStr "v") "s" 0 w
              ltac:(discriminate)) as (_ & _ & _ & _ & H).
  exact (f_equal fst H).
Defined.

(** X14 at work. *)
Lemma SetJSONWithContext_witness :
  let m := WithPrefix "app" in
  let w := Redis.start Redis.empty in
  srv (snd (SetJSONWithContext Redis.exec Redis.release BoolJSON.Marshal
              {| ctx_Err := None |} m "flag" true 60 w)) =
  srv (snd (SetJSON Redis.exec Redis.release BoolJSON.Marshal m "flag" true 60 w)).
Proof.
  intros m w.
  destruct (SetJSONWithContext_stores_what_SetJSON_stores BoolJSON.Marshal
              m "flag" true 60 w) as (_ & H & _).
  - unfold MinInt64, MaxInt64. lia.
  - exact H.
Defined.

(** X16 at work. *)
Lemma Do_witness :
  let m := WithPrefix "app" in
  let w' := snd (Set_ Redis.exec Redis.release m "k" (AStr "v") 0
                   (Redis.start Redis.empty)) in
  fst (Do Redis.exec Redis.release m "GET" [AStr "app:k"] w') = inl (RBulk "v") ∧
  fst (Do Redis.exec Redis.release m "GET" [AStr "k"] w') =
  fst (Do Redis.exec Redis.release m "GET" [AStr "k"] (Redis.start Redis.empty)).
Proof.
  intros m w'.
  destruct (Do_sends_the_key_as_given m "k" (AStr "v") 0 "GET" [AStr "k"]
              (Redis.start Redis.empty)) as (_ & H2 & H3).
  - unfold MinInt64, MaxInt64. lia.
  - discriminate.
  - split; [exact H2|exact H3].
Defined.

(** X18 at work. *)
Lemma Subscribe_closed_witness :
  let m := WithPrefix "app" in
  let w := Redis.start Redis.empty in
  fst (Subscribe Redis.exec Redis.release m [AStr "news"] w) =
    Returned (Some 0%nat, None) ∧
  0%nat ∈ Redis.receivers
            (srv (snd (SubscribeWithContext Redis.exec Redis.release
                         {| ctx_Err := None |} m [AStr "news"] w)))
            "app:news".
Proof.
  intros m w.
  destruct (Subscribe_returns_a_connection_it_has_closed m ["news"] w
              ltac:(discriminate)) as (H1 & _ & _ & H4).
  split; [exact H1|]. apply (H4 "news"). left.
Defined.

(** X19 at work. *)
Lemma pushed_values_witness :
  srv (snd (LPushJSON RedisList.exec RedisList.release BoolJSON.Marshal
              (WithPrefix "app") "flags" [true; false] (RedisList.start ∅))) =
  <["app:flags" := ["false"; "true"]]> ∅.
Proof.
  destruct (pushed_values_land_in_order BoolJSON.Marshal (WithPrefix "app") "flags"
              true [false] "true" ["false"] (RedisList.start ∅))
    as (_ & _ & _ & H & _).
  - constructor; [reflexivity|]. constructor; [reflexivity|constructor].
  - exact H.
Defined.

(** X20 at work: the head is not JSON, and it is gone after the pop. *)
Lemma LPopJSON_witness :
  let w := RedisList.start (<["app:flags" := ["maybe"; "true"]]> ∅) in
  fst (LPopJSON RedisList.exec RedisList.release BoolJSON.Unmarshal (WithPrefix "app")
         "flags" true w) = (None, Some (ErrFrom (ErrJSON "invalid character"))) ∧
  srv (snd (LPopJSON RedisList.exec RedisList.release BoolJSON.Unmarshal
              (WithPrefix "app") "flags" true w)) !! "app:flags" = Some ["true"].
Proof.
  intros w.
  destruct (LPopJSON_consumes_the_head_it_reads BoolJSON.Unmarshal (WithPrefix "app")
              "flags" "maybe" ["true"] w) as (_ & H2 & H3 & _).
  - reflexivity.
  - split; [exact H2|exact H3].
Defined.

(** X21 at work. *)
Lemma RPopJSON_witness :
  let w := RedisList.start (<["app:flags" := ["true"; "false"]]> ∅) in
  fst (RPopJSON RedisList.exec RedisList.release BoolJSON.Unmarshal (WithPrefix "app")
         "flags" true w) = (Some false, None) ∧
  srv (snd (RPopJSON RedisList.exec RedisList.release BoolJSON.Unmarshal
              (WithPrefix "app") "flags" true w)) !! "app:flags" = Some ["true"].
Proof.
  intros w.
  destruct (RPopJSON_consumes_the_last_element BoolJSON.Unmarshal (WithPrefix "app")
              "flags" "false" ["true"] w) as (_ & H2 & H3 & _).
  - reflexivity.
  - split; [exact H2|exact H3].
Defined.

(** X22 at work. *)
Lemma queue_and_stack_witness :
  let m := WithPrefix "app" in
  let w := RedisList.start ∅ in
  fst (LPopJSON RedisList.exec RedisList.release BoolJSON.Unmarshal m "flags" true
         (snd (RPushJSON RedisList.exec RedisList.release BoolJSON.Marshal m "flags"
                 [true; false] w))) = (Some true, None) ∧
  fst (LPopJSON RedisList.exec RedisList.release BoolJSON.Unmarshal m "flags" true
         (snd (LPushJSON RedisList.exec RedisList.release BoolJSON.Marshal m "flags"
                 [true; false] w))) = (Some false, None).
Proof.
  intros m w.
  destruct (JSON_lists_work_as_queue_and_stack BoolJSON.Marshal BoolJSON.Unmarshal
              m "flags" [true; false] ["true"; "false"] true false w)
    as (H1 & _ & H3 & _).
  - constructor; [split; reflexivity|]. constructor; [split; reflexivity|constructor].
  - reflexivity.
  - reflexivity.
  - reflexivity.
  - split; [exact H1|exact H3].
Defined.

(** X24 at work: two prefixes and a database number after them. *)
Lemma New_prefix_witness :
  fst (fst (fst (Config.New Redis.exec Redis.release
                   [Config.WithPrefix "old"; Config.WithPrefix "shop"; Config.WithDB 3]
                   (Redis.start Redis.empty)))) = WithPrefix "shop".
Proof.
  destruct (New_takes_the_prefix_of_the_last_WithPrefix Redis.exec Redis.release
              [Config.WithPrefix "old"] "shop" [Config.WithDB 3]
              (Redis.start Redis.empty)) as (H & _).
  - constructor; [intros o; reflexivity|constructor].
  - exact H.
Defined.
